(** * The expression pipeline of the calculator ([src/App.tsx])

    A shallow embedding of the App component's calculator logic: the
    input buffer, the evaluation handler with its primary engine and its
    asynchronous fallback, the bounded history, the keypad handler and the
    voice-transcript handler.

    JavaScript strings are sequences of UTF-16 code units, so a string is a
    list of code units here; the regular expressions of the source are
    literal patterns (with alternation and word boundaries in the transcript
    handler) applied with the [g] flag, and are modelled by left-to-right
    scans that replace every non-overlapping match. *)

From Stdlib Require Import List NArith Bool String Ascii Lia Arith Sorted.
Import ListNotations.

Local Open Scope N_scope.

(** ** Strings *)

Module JS.

(** A JavaScript string: its UTF-16 code units. *)
Definition jsstring := list N.

(** An ASCII literal as a JavaScript string. *)
Definition js (s : string) : jsstring :=
  map N_of_ascii (list_ascii_of_string s).

(** Code units of the glyphs the keypad uses. *)
Definition times_sign : N := 215.   (* U+00D7 *)
Definition division_sign : N := 247. (* U+00F7 *)
Definition greek_pi : N := 960.      (* U+03C0 *)
Definition sqrt_sign : N := 8730.    (* U+221A *)

Definition jseq (a b : jsstring) : bool :=
  if list_eq_dec N.eq_dec a b then true else false.

(** [starts_with p s]: the literal [p] matches at the start of [s]. *)
Fixpoint starts_with (p s : jsstring) : bool :=
  match p, s with
  | [], _ => true
  | _ :: _, [] => false
  | a :: p', b :: s' => (a =? b) && starts_with p' s'
  end.

(** [occurs p s]: the literal [p] matches somewhere in [s]. *)
Fixpoint occurs (p s : jsstring) : bool :=
  match s with
  | [] => starts_with p []
  | _ :: t => starts_with p s || occurs p t
  end.

(** [s.replace(/pat/g, rep)] for a non-empty literal pattern: scan from the
    left; where the pattern matches, emit [rep] and resume after the match
    ([skip] counts the code units of the current match still to pass over);
    elsewhere copy the code unit. *)
Fixpoint replace_from (pat rep : jsstring) (skip : nat) (s : jsstring)
  : jsstring :=
  match s with
  | [] => []
  | c :: t =>
      match skip with
      | S k => replace_from pat rep k t
      | O =>
          if starts_with pat s
          then rep ++ replace_from pat rep (Nat.pred (List.length pat)) t
          else c :: replace_from pat rep 0 t
      end
  end.

Definition replace_all (pat rep s : jsstring) : jsstring :=
  replace_from pat rep 0 s.

(** [occurs_outside q pat s]: the literal [q] matches in [s] at a place
    where [pat] does not. *)
Fixpoint occurs_outside (q pat s : jsstring) : bool :=
  match s with
  | [] => false
  | _ :: t =>
      (starts_with q s && negb (starts_with pat s)) || occurs_outside q pat t
  end.

End JS.
Import JS.

(** ** The expression normalizer (lines 116-117 of handleCalculate) *)

Definition normalize (input : jsstring) : jsstring :=
  let expression :=
    replace_all [greek_pi] (js "pi")
      (replace_all [division_sign] (js "/")
         (replace_all [times_sign] (js "*") input)) in
  replace_all (js "ln(") (js "log(")
    (replace_all (js "lg(") (js "log10(") expression).

(** A text the rewriting has nothing to do on. *)
Record normal (t : jsstring) : Prop := {
  no_times : Forall (fun x => x <> times_sign) t;
  no_division : Forall (fun x => x <> division_sign) t;
  no_pi : Forall (fun x => x <> greek_pi) t;
  no_lg : occurs (js "lg(") t = false;
  no_ln : occurs (js "ln(") t = false
}.

(** ** What the component imports or finds in the browser

    [evaluate] is mathjs (typed [any]: it throws, or returns a value that may
    or may not be a number); [toFixed], [Number] and [toString] are the
    language's own, on binary64 numbers; [toLowerCase] is the language's
    Unicode lower-casing. None of them is code of the repository: the model
    takes them as they are typed and assumes nothing about them. *)

Class Externals := {
  (** JavaScript numbers and the arithmetic the scope's wrappers use. *)
  number : Type;
  num_mul : number -> number -> number;
  num_div : number -> number -> number;
  num_180 : number;
  Math_PI : number;
  Math_sin : number -> number;
  Math_cos : number -> number;
  Math_tan : number -> number;
  Math_asin : number -> number;
  Math_acos : number -> number;
  Math_atan : number -> number;
  (** What [evaluate] returns, and [evaluate] itself ([None]: it throws). *)
  value : Type;
  evaluate : jsstring -> list (jsstring * (number -> number)) -> option value;
  (** [v.toFixed(digits)]; [None]: a TypeError, [v] has no such method. *)
  toFixed : value -> N -> option jsstring;
  (** [Number(s).toString()]. *)
  Number_toString : jsstring -> jsstring;
  (** [s.toLowerCase()]. *)
  toLowerCase : jsstring -> jsstring;
  (** [window.SpeechRecognition || window.webkitSpeechRecognition]. *)
  speechRecognitionSupported : bool
}.

(** ** The session state (the component's [useState] cells) *)

Module HistoryItem.
Record t := { input : jsstring; result : jsstring; date : N }.
End HistoryItem.

Record State := {
  input : jsstring;
  result : jsstring;
  history : list HistoryItem.t;
  isLoading : bool;
  isGemini : bool;
  isDegrees : bool;
  is2nd : bool;
  errorKey : N;
  isListening : bool;
  (** [recognitionRef.current] is not null. *)
  recognitionRef : bool
}.

Definition initial : State :=
  {| input := []; result := js "0"; history := []; isLoading := false;
     isGemini := false; isDegrees := false; is2nd := false; errorKey := 0;
     isListening := false; recognitionRef := false |}.

Definition setInput (f : jsstring -> jsstring) (st : State) : State :=
  {| input := f (input st); result := result st; history := history st;
     isLoading := isLoading st; isGemini := isGemini st;
     isDegrees := isDegrees st; is2nd := is2nd st; errorKey := errorKey st;
     isListening := isListening st; recognitionRef := recognitionRef st |}.

Definition setResult (v : jsstring) (st : State) : State :=
  {| input := input st; result := v; history := history st;
     isLoading := isLoading st; isGemini := isGemini st;
     isDegrees := isDegrees st; is2nd := is2nd st; errorKey := errorKey st;
     isListening := isListening st; recognitionRef := recognitionRef st |}.

Definition setHistory (f : list HistoryItem.t -> list HistoryItem.t)
  (st : State) : State :=
  {| input := input st; result := result st; history := f (history st);
     isLoading := isLoading st; isGemini := isGemini st;
     isDegrees := isDegrees st; is2nd := is2nd st; errorKey := errorKey st;
     isListening := isListening st; recognitionRef := recognitionRef st |}.

Definition setIsLoading (v : bool) (st : State) : State :=
  {| input := input st; result := result st; history := history st;
     isLoading := v; isGemini := isGemini st;
     isDegrees := isDegrees st; is2nd := is2nd st; errorKey := errorKey st;
     isListening := isListening st; recognitionRef := recognitionRef st |}.

Definition setIsGemini (v : bool) (st : State) : State :=
  {| input := input st; result := result st; history := history st;
     isLoading := isLoading st; isGemini := v;
     isDegrees := isDegrees st; is2nd := is2nd st; errorKey := errorKey st;
     isListening := isListening st; recognitionRef := recognitionRef st |}.

Definition setIsDegrees (f : bool -> bool) (st : State) : State :=
  {| input := input st; result := result st; history := history st;
     isLoading := isLoading st; isGemini := isGemini st;
     isDegrees := f (isDegrees st); is2nd := is2nd st;
     errorKey := errorKey st;
     isListening := isListening st; recognitionRef := recognitionRef st |}.

Definition setIs2nd (f : bool -> bool) (st : State) : State :=
  {| input := input st; result := result st; history := history st;
     isLoading := isLoading st; isGemini := isGemini st;
     isDegrees := isDegrees st; is2nd := f (is2nd st);
     errorKey := errorKey st;
     isListening := isListening st; recognitionRef := recognitionRef st |}.

Definition setErrorKey (f : N -> N) (st : State) : State :=
  {| input := input st; result := result st; history := history st;
     isLoading := isLoading st; isGemini := isGemini st;
     isDegrees := isDegrees st; is2nd := is2nd st;
     errorKey := f (errorKey st);
     isListening := isListening st; recognitionRef := recognitionRef st |}.

Definition setIsListening (v : bool) (st : State) : State :=
  {| input := input st; result := result st; history := history st;
     isLoading := isLoading st; isGemini := isGemini st;
     isDegrees := isDegrees st; is2nd := is2nd st; errorKey := errorKey st;
     isListening := v; recognitionRef := recognitionRef st |}.

Definition setRecognitionRef (v : bool) (st : State) : State :=
  {| input := input st; result := result st; history := history st;
     isLoading := isLoading st; isGemini := isGemini st;
     isDegrees := isDegrees st; is2nd := is2nd st; errorKey := errorKey st;
     isListening := isListening st; recognitionRef := v |}.

(** [handleClear] (lines 105-109). *)
Definition handleClear (st : State) : State :=
  setIsGemini false (setResult (js "0") (setInput (fun _ => []) st)).

(** [handleHistoryClick] (lines 271-275). *)
Definition handleHistoryClick (v : jsstring) (st : State) : State :=
  setIsGemini false (setResult v (setInput (fun _ => v) st)).

(** Modelled from the spec: the history list of the Display component
    (components/Display, not among the sources) calls [onHistoryClick] with
    the stored result text of the entry that was selected. *)
Definition selectHistoryEntry (e : HistoryItem.t) (st : State) : State :=
  handleHistoryClick (HistoryItem.result e) st.

(** ** The transcript handler's rewriting (lines 196-222) *)

Module Transcript.

(** [\w] without the [u] flag. *)
Definition is_word_char (c : N) : bool :=
  ((48 <=? c) && (c <=? 57)) || ((65 <=? c) && (c <=? 90)) || (c =? 95)
  || ((97 <=? c) && (c <=? 122)).

Definition is_word (o : option N) : bool :=
  match o with Some c => is_word_char c | None => false end.

(** [\b] between two neighbouring code units ([None]: an end of the string). *)
Definition word_boundary (before after : option N) : bool :=
  xorb (is_word before) (is_word after).

(** Case folding of the [i] flag. The patterns are ASCII, and without the
    [u] flag a code unit outside ASCII never folds to an ASCII one, so only
    the ASCII letters matter. *)
Definition fold_case (c : N) : N :=
  if (97 <=? c) && (c <=? 122) then c - 32 else c.

Fixpoint starts_with_ci (p s : jsstring) : bool :=
  match p, s with
  | [], _ => true
  | _ :: _, [] => false
  | a :: p', b :: s' => (fold_case a =? fold_case b) && starts_with_ci p' s'
  end.

(** One alternative of [\b(a1|a2|...)\b] at the start of [s]: the literal,
    then a word boundary after its last code unit. *)
Definition alternative_matches (alt s : jsstring) : bool :=
  starts_with_ci alt s
  && word_boundary (nth_error s (Nat.pred (List.length alt)))
                   (nth_error s (List.length alt)).

(** [\b(a1|a2|...)\b] at the start of [s], which [before] precedes: the
    length of the match, the first alternative that fits being taken. *)
Definition word_match (alts : list jsstring) (before : option N)
  (s : jsstring) : option nat :=
  if word_boundary before (hd_error s)
  then option_map (@List.length N)
         (find (fun alt => alternative_matches alt s) alts)
  else None.

(** [s.replace(/\b(a1|a2|...)\b/gi, rep)], the alternatives not empty. *)
Fixpoint replace_words_from (alts : list jsstring) (rep : jsstring)
  (skip : nat) (before : option N) (s : jsstring) : jsstring :=
  match s with
  | [] => []
  | c :: t =>
      match skip with
      | S k => replace_words_from alts rep k (Some c) t
      | O =>
          match word_match alts before s with
          | Some n => rep ++ replace_words_from alts rep (Nat.pred n) (Some c) t
          | None => c :: replace_words_from alts rep 0 (Some c) t
          end
      end
  end.

Definition replace_words (alts : list string) (rep : string) (s : jsstring)
  : jsstring :=
  replace_words_from (map js alts) (js rep) 0 None s.

Local Open Scope string_scope.

(** The chain of replacements of lines 199-218, in the source's order. *)
Definition spoken_to_symbols (transcript : jsstring) : jsstring :=
  let t := replace_words ["one"; "won"] "1" transcript in
  let t := replace_words ["two"; "to"; "too"] "2" t in
  let t := replace_words ["three"] "3" t in
  let t := replace_words ["four"; "for"] "4" t in
  let t := replace_words ["five"] "5" t in
  let t := replace_words ["six"] "6" t in
  let t := replace_words ["seven"] "7" t in
  let t := replace_words ["eight"] "8" t in
  let t := replace_words ["nine"] "9" t in
  let t := replace_words ["zero"] "0" t in
  let t := replace_words ["plus"; "add"] "+" t in
  let t := replace_words ["minus"; "subtract"] "-" t in
  let t := replace_words ["times"; "multiply"; "multiplied by"] "*" t in
  let t := replace_words ["divided by"; "divide"; "over"] "/" t in
  let t := replace_words ["point"; "dot"] "." t in
  let t := replace_words ["x"] "*" t in
  let t := replace_words ["power"; "to the power of"] "^" t in
  let t := replace_words ["open parenthesis"] "(" t in
  replace_words ["close parenthesis"] ")" t.

Local Close Scope string_scope.

(** The class [[0-9+\-*/^().]] of line 222. *)
Definition allowed (c : N) : bool :=
  ((48 <=? c) && (c <=? 57))
  || existsb (N.eqb c) (js "+-*/^().").

(** [sanitizedTranscript] as a function of the lower-cased transcript. *)
Definition sanitizedTranscript (lowered : jsstring) : jsstring :=
  filter allowed (spoken_to_symbols lowered).

End Transcript.

Section App.

Context {X : Externals}.

(** [recognition.onresult] (lines 195-225). *)
Definition recognition_onresult (transcript : jsstring) (st : State) : State :=
  let sanitized := Transcript.sanitizedTranscript (toLowerCase transcript) in
  setInput (fun prev => prev ++ sanitized) st.

(** [recognition.onstart], [onend] and [onerror] (lines 177-193); the alert
    of [onerror] leaves the state alone. *)
Definition recognition_onstart (st : State) : State := setIsListening true st.

Definition recognition_onend (st : State) : State :=
  setRecognitionRef false (setIsListening false st).

Definition recognition_onerror (error : jsstring) (st : State) : State :=
  setRecognitionRef false (setIsListening false st).

(** [handleMicClick] (lines 158-228): without browser support an alert and
    nothing else; while listening, the running capture is asked to stop (the
    browser answers with [onend]); otherwise a new capture is created,
    stored in the ref and started. *)
Definition handleMicClick (st : State) : State :=
  if negb speechRecognitionSupported then st
  else if isListening st then st
  else setRecognitionRef true st.

(** ** Evaluation (handleCalculate, lines 111-156) *)

Definition Scope := list (jsstring * (number -> number)).

(** The scope of lines 119-126. *)
Definition scope (isDegrees : bool) : Scope :=
  if isDegrees then
    [ (js "sin", fun x => Math_sin (num_div (num_mul x Math_PI) num_180));
      (js "cos", fun x => Math_cos (num_div (num_mul x Math_PI) num_180));
      (js "tan", fun x => Math_tan (num_div (num_mul x Math_PI) num_180));
      (js "asin", fun x => num_div (num_mul (Math_asin x) num_180) Math_PI);
      (js "acos", fun x => num_div (num_mul (Math_acos x) num_180) Math_PI);
      (js "atan", fun x => num_div (num_mul (Math_atan x) num_180) Math_PI) ]
  else [].

(** Property lookup in an object literal, for the names the page looks up
    (the labels of the keypad, the function names of the engine): none of
    them is a name inherited from [Object.prototype]. *)
Definition lookup {A} (key : jsstring) (obj : list (jsstring * A)) : option A :=
  option_map snd (find (fun kv => jseq key (fst kv)) obj).

(** The scope an evaluation started in state [st] hands to the engine. *)
Definition evaluation_scope (st : State) : Scope := scope (isDegrees st).

(** The body of the [try] block up to [formattedResult] (lines 116-129);
    [None] when something in it throws: the engine, or [toFixed] on a value
    that has no such method. *)
Definition try_primary (st : State) : option jsstring :=
  let expression := normalize (input st) in
  match evaluate expression (evaluation_scope st) with
  | None => None
  | Some mathResult =>
      match toFixed mathResult 10 with
      | None => None
      | Some fixed => Some (Number_toString fixed)
      end
  end.

(** The updater of lines 131 and 139:
    [prev => [{input, result, date}, ...prev].slice(0, 20)]. *)
Definition push_history (e : HistoryItem.t) (prev : list HistoryItem.t)
  : list HistoryItem.t :=
  firstn 20 (e :: prev).

(** What [await calculateWithGemini(input)] comes back with: a value
    ([None] for a falsy one, [Some r] for an object whose [result] is [r]),
    or a rejection. *)
Inductive GeminiOutcome :=
| Resolved (geminiResult : option jsstring)
| Rejected.

(** The page: the state, the calls of [calculateWithGemini] that have not
    settled yet (each with the [input] its handler closed over, oldest
    first), and the log of every call made, with its argument. *)
Record World := {
  ui : State;
  inflight : list jsstring;
  calls : list jsstring
}.

Definition initial_world : World :=
  {| ui := initial; inflight := []; calls := [] |}.

Definition with_ui (f : State -> State) (w : World) : World :=
  {| ui := f (ui w); inflight := inflight w; calls := calls w |}.

(** [handleCalculate] up to its [await] (or to its end, when the [try]
    block does not throw). [now] is what [new Date()] reads. *)
Definition handleCalculate (now : N) (w : World) : World :=
  let st := ui w in
  match input st with
  | [] => w
  | _ :: _ =>
      let st1 := setResult [] (setIsLoading true st) in
      match try_primary st with
      | Some formattedResult =>
          let item := {| HistoryItem.input := input st;
                         HistoryItem.result := formattedResult;
                         HistoryItem.date := now |} in
          with_ui (fun _ =>
            setIsLoading false
              (setIsGemini false
                 (setInput (fun _ => formattedResult)
                    (setHistory (push_history item)
                       (setResult formattedResult st1))))) w
      | None =>
          {| ui := st1;
             inflight := inflight w ++ [input st];
             calls := calls w ++ [input st] |}
      end
  end.

(** The rest of [handleCalculate], run when the awaited call settles;
    [captured] is the [input] the handler closed over. *)
Definition handleCalculate_resume (captured : jsstring)
  (outcome : GeminiOutcome) (now : N) (st : State) : State :=
  let st' :=
    match outcome with
    | Resolved (Some r) =>
        if negb (jseq r (js "Error")) then
          let item := {| HistoryItem.input := captured;
                         HistoryItem.result := r;
                         HistoryItem.date := now |} in
          setIsGemini true
            (setInput (fun _ => r)
               (setHistory (push_history item) (setResult r st)))
        else
          setErrorKey (fun k => k + 1)
            (setInput (fun _ => []) (setResult (js "Error") st))
    | Resolved None =>
        setErrorKey (fun k => k + 1)
          (setInput (fun _ => []) (setResult (js "Error") st))
    | Rejected =>
        setErrorKey (fun k => k + 1)
          (setInput (fun _ => []) (setResult (js "API Error") st))
    end in
  setIsLoading false st'.

(** ** The keypad (handleButtonClick, lines 230-269) *)

Definition functions (is2nd : bool) : list (jsstring * jsstring) :=
  [ (js "sin", if is2nd then js "asin(" else js "sin(");
    (js "cos", if is2nd then js "acos(" else js "cos(");
    (js "tan", if is2nd then js "atan(" else js "tan(");
    (js "lg", if is2nd then js "10^" else js "lg(");
    (js "ln", if is2nd then js "e^" else js "ln(");
    ([sqrt_sign], if is2nd then js "^2" else js "sqrt(") ].

(** The operators after which a fresh result is continued, not replaced. *)
Definition continuing_operators : list jsstring :=
  [js "+"; js "-"; [times_sign]; [division_sign]; js "%"; js "^"].

Definition includes (l : list jsstring) (v : jsstring) : bool :=
  existsb (jseq v) l.



Definition append (s : jsstring) : State -> State :=
  setInput (fun prev => prev ++ s).

Definition handleButtonClick (v : jsstring) (now : N) (w : World) : World :=
  let st := ui w in
  if isLoading st then w
  else
    match lookup v (functions (is2nd st)) with
    | Some token => with_ui (append token) w
    | None =>
        if jseq v (js "AC") then with_ui handleClear w
        else if jseq v (js "=") then handleCalculate now w
        else if jseq v (js "(") then with_ui (append (js "(")) w
        else if jseq v (js ")") then with_ui (append (js ")")) w
        else if jseq v (js "Deg") then with_ui (setIsDegrees negb) w
        else if jseq v (js "2nd") then with_ui (setIs2nd negb) w
        else if jseq v (js "x^y") then with_ui (append (js "^")) w
        else if jseq v (js "!") then with_ui (append (js "!")) w
        else if jseq v (js "1/x") then with_ui (append (js "1/")) w
        else if jseq v (js "e") then with_ui (append (js "e")) w
        else if jseq v [greek_pi] then with_ui (append [greek_pi]) w
        else if jseq v (js "MIC") then with_ui handleMicClick w
        else if jseq v (js "DEL") then with_ui (setInput (@removelast N)) w
        else if negb (jseq (result st) (js "0")) && jseq (input st) (result st)
                && negb (includes continuing_operators v)
        then with_ui (setInput (fun _ => v)) w
        else with_ui (append v) w
    end.

(** ** The page as a transition system

    Each event runs its handler to completion on the state of the last
    render. *)

Inductive Event :=
| Click (value : jsstring) (now : N)
| HistoryClick (value : jsstring)
| Settled (outcome : GeminiOutcome) (now : N)
| RecognitionStart
| RecognitionEnd
| RecognitionError (error : jsstring)
| RecognitionResult (transcript : jsstring).

Definition step (ev : Event) (w : World) : World :=
  match ev with
  | Click v now => handleButtonClick v now w
  | HistoryClick v => with_ui (handleHistoryClick v) w
  | Settled outcome now =>
      match inflight w with
      | [] => w
      | captured :: rest =>
          {| ui := handleCalculate_resume captured outcome now (ui w);
             inflight := rest;
             calls := calls w |}
      end
  | RecognitionStart => with_ui recognition_onstart w
  | RecognitionEnd => with_ui recognition_onend w
  | RecognitionError e => with_ui (recognition_onerror e) w
  | RecognitionResult t => with_ui (recognition_onresult t) w
  end.

Fixpoint run (evs : list Event) (w : World) : World :=
  match evs with
  | [] => w
  | ev :: rest => run rest (step ev w)
  end.

Definition reachable (w : World) : Prop :=
  exists evs, w = run evs initial_world.

(** A successful evaluation, primary or fallback, and the entry it is to
    record: the [=] key pressed on a non-empty input while nothing is being
    evaluated, the [try] block going through; or the awaited call resolving
    with a result other than the marker ["Error"]. *)
Definition recorded (ev : Event) (w : World) : option HistoryItem.t :=
  match ev with
  | Click v now =>
      if negb (isLoading (ui w)) && jseq v (js "=")
         && negb (jseq (input (ui w)) [])
      then option_map
             (fun r => {| HistoryItem.input := input (ui w);
                          HistoryItem.result := r;
                          HistoryItem.date := now |})
             (try_primary (ui w))
      else None
  | Settled (Resolved (Some r)) now =>
      match inflight w with
      | captured :: _ =>
          if jseq r (js "Error") then None
          else Some {| HistoryItem.input := captured;
                       HistoryItem.result := r;
                       HistoryItem.date := now |}
      | [] => None
      end
  | _ => None
  end.

(** The entries of the successful evaluations of a run, the latest first. *)
Fixpoint evaluations (evs : list Event) (w : World) : list HistoryItem.t :=
  match evs with
  | [] => []
  | ev :: rest =>
      evaluations rest (step ev w)
      ++ match recorded ev w with Some e => [e] | None => [] end
  end.

(** The two texts the display shows after a failed evaluation. *)
Definition error_marker (r : jsstring) : Prop :=
  r = js "Error" \/ r = js "API Error".

(** The outcomes of the awaited call that the handler treats as a failure:
    a rejection, a falsy value, or the marker. *)
Definition fallback_failed (o : GeminiOutcome) : Prop :=
  o = Rejected \/ o = Resolved None \/ o = Resolved (Some (js "Error")).

Definition is_settled (ev : Event) : bool :=
  match ev with Settled _ _ => true | _ => false end.

(** The time an event's handler reads with [new Date()], if it can. *)
Definition event_time (ev : Event) : option N :=
  match ev with
  | Click _ now | Settled _ now => Some now
  | _ => None
  end.

(** The clock does not go back along the events, and starts at [t0] or
    later. *)
Fixpoint chronological (t0 : N) (evs : list Event) : Prop :=
  match evs with
  | [] => True
  | ev :: rest =>
      match event_time ev with
      | Some t => t0 <= t /\ chronological t rest
      | None => chronological t0 rest
      end
  end.

(** The entries are ordered by date, the latest first. *)
Definition latest_first (h : list HistoryItem.t) : Prop :=
  StronglySorted (fun a b => HistoryItem.date b <= HistoryItem.date a) h.

(** An update of the state that touches neither [isLoading] nor the
    history. *)
Definition quiet (f : State -> State) : Prop :=
  forall st, isLoading (f st) = isLoading st /\ history (f st) = history st.

(** At most one call is awaited, and exactly while [isLoading] is set. *)
Definition loading_inv (w : World) : Prop :=
  if isLoading (ui w) then exists c, inflight w = [c] else inflight w = [].

End App.

(** ** Notions used to state properties of the handlers *)

(** An ASCII letter. *)
Definition ascii_letter (c : N) : bool :=
  ((65 <=? c) && (c <=? 90)) || ((97 <=? c) && (c <=? 122)).

(** Every alternative starts with an ASCII letter. *)
Definition heads_letter (alts : list jsstring) : bool :=
  forallb (fun alt => match alt with a :: _ => ascii_letter a | [] => false end)
          alts.

(** A text the normalizer has no glyph or function name to rewrite in:
    none of the three glyphs, and no letter [l]. *)
Definition plain (t : jsstring) : Prop :=
  Forall (fun c => c <> times_sign /\ c <> division_sign /\ c <> greek_pi
                   /\ c <> 108) t.

(** No evaluation is recorded, awaited or sent to the fallback with an
    empty input. *)
Definition nonempty_inputs (w : World) : Prop :=
  Forall (fun e => HistoryItem.input e <> []) (history (ui w))
  /\ Forall (fun c => c <> []) (inflight w)
  /\ Forall (fun c => c <> []) (calls w).

(** The outcomes of the awaited call after which the handler shows an
    error, as a test. *)
Definition fails (o : GeminiOutcome) : bool :=
  match o with
  | Resolved (Some r) => jseq r (js "Error")
  | Resolved None => true
  | Rejected => true
  end.

(** The event is the settling of an awaited call with such an outcome. *)
Definition failed_evaluation (ev : Event) (w : World) : bool :=
  match ev, inflight w with
  | Settled o _, _ :: _ => fails o
  | _, _ => false
  end.

(** The failed evaluations of a run, counted. *)
Fixpoint failures {X : Externals} (evs : list Event) (w : World) : nat :=
  match evs with
  | [] => 0
  | ev :: rest =>
      (if failed_evaluation ev w then 1 else 0) + failures rest (step ev w)
  end.

(** ** The themes (lines 35-102)

    The type [Theme] is declared in [./types] and the predefined themes in
    [./themes], neither among the sources: of a theme the component uses
    its [name] and its [colors], an object of strings; the predefined
    themes and the default one are taken as they come. [JSON.stringify],
    [JSON.parse] and [localStorage] are the browser's. The writes of the
    theme effect to the document's style are not part of the state kept
    here: nothing in the component reads them back. *)

Module Theme.
Record t := { name : jsstring; colors : list (jsstring * jsstring) }.
End Theme.

Class ThemeImports := {
  PREDEFINED_THEMES : list Theme.t;
  DEFAULT_THEME : Theme.t;
  JSON_stringify : list Theme.t -> jsstring;
  (** [None]: [JSON.parse] throws. What the page finds under its key is
      taken to be a list of themes when it parses at all, as the source's
      type annotation has it. *)
  JSON_parse : jsstring -> option (list Theme.t)
}.

(** The two keys of the page in [localStorage]. *)
Inductive StorageKey :=
| custom_themes_key       (* 'calculator-custom-themes' *)
| active_theme_name_key.  (* 'calculator-active-theme-name' *)

(** [localStorage]: what the two keys hold, and whether reading and
    writing it go through or throw (storage disabled, quota exceeded). *)
Record Storage := {
  custom_themes_item : option jsstring;
  active_theme_name_item : option jsstring;
  readable : bool;
  writable : bool
}.

(** [localStorage.getItem(key)]; [None]: it throws. *)
Definition getItem (key : StorageKey) (s : Storage)
  : option (option jsstring) :=
  if readable s then
    Some match key with
         | custom_themes_key => custom_themes_item s
         | active_theme_name_key => active_theme_name_item s
         end
  else None.

(** [localStorage.setItem(key, value)]; [None]: it throws. *)
Definition setItem (key : StorageKey) (v : jsstring) (s : Storage)
  : option Storage :=
  if writable s then
    Some match key with
         | custom_themes_key =>
             {| custom_themes_item := Some v;
                active_theme_name_item := active_theme_name_item s;
                readable := readable s; writable := writable s |}
         | active_theme_name_key =>
             {| custom_themes_item := custom_themes_item s;
                active_theme_name_item := Some v;
                readable := readable s; writable := writable s |}
         end
  else None.

(** A write inside [try { ... } catch { console.error(...) }]. *)
Definition try_setItem (key : StorageKey) (v : jsstring) (s : Storage)
  : Storage :=
  match setItem key v s with Some s' => s' | None => s end.

Record ThemeState := {
  customThemes : list Theme.t;
  activeTheme : Theme.t;
  themeAnimationKey : N;
  localStorage : Storage
}.

Section Themes.

Context {T : ThemeImports}.

(** The initializer of [customThemes] (lines 35-42). *)
Definition initialCustomThemes (s : Storage) : list Theme.t :=
  match getItem custom_themes_key s with
  | None => []
  | Some None => []
  | Some (Some saved) =>
      match saved with
      | [] => []
      | _ :: _ =>
          match JSON_parse saved with Some themes => themes | None => [] end
      end
  end.

(** [allThemes.find(t => t.name === savedName)], with a name that may be
    [null]. *)
Definition find_theme (savedName : option jsstring) (l : list Theme.t)
  : option Theme.t :=
  match savedName with
  | None => None
  | Some n => find (fun t => jseq (Theme.name t) n) l
  end.

(** The initializer of [activeTheme] (lines 44-53). *)
Definition initialActiveTheme (customThemes : list Theme.t) (s : Storage)
  : Theme.t :=
  match getItem active_theme_name_key s with
  | None => DEFAULT_THEME
  | Some savedName =>
      match find_theme savedName (PREDEFINED_THEMES ++ customThemes) with
      | Some savedTheme => savedTheme
      | None => DEFAULT_THEME
      end
  end.

(** The storage part of the effect on [activeTheme] (lines 62-68). React
    runs the effect after the first render and after every render in which
    the active theme is another object than before; run again on the same
    theme it writes the name it wrote the time before. *)
Definition themeEffect (ts : ThemeState) : ThemeState :=
  {| customThemes := customThemes ts;
     activeTheme := activeTheme ts;
     themeAnimationKey := themeAnimationKey ts;
     localStorage :=
       if negb (jseq (Theme.name (activeTheme ts)) (js "Custom"))
       then try_setItem active_theme_name_key (Theme.name (activeTheme ts))
              (localStorage ts)
       else localStorage ts |}.

(** The first render, with its effect. *)
Definition mount (s : Storage) : ThemeState :=
  let custom := initialCustomThemes s in
  themeEffect
    {| customThemes := custom;
       activeTheme := initialActiveTheme custom s;
       themeAnimationKey := 0;
       localStorage := s |}.

(** [setTheme] (lines 72-78), with the effect that follows the change. *)
Definition setTheme (newTheme : Theme.t) (ts : ThemeState) : ThemeState :=
  if jseq (Theme.name (activeTheme ts)) (Theme.name newTheme)
     && negb (jseq (Theme.name newTheme) (js "Custom"))
  then ts
  else
    themeEffect
      {| customThemes := customThemes ts;
         activeTheme := newTheme;
         themeAnimationKey := themeAnimationKey ts + 1;
         localStorage := localStorage ts |}.

(** [saveCustomTheme] (lines 80-89), with the effect that follows. *)
Definition saveCustomTheme (theme : Theme.t) (ts : ThemeState) : ThemeState :=
  let newCustomThemes :=
    filter (fun t => negb (jseq (Theme.name t) (Theme.name theme)))
           (customThemes ts)
    ++ [theme] in
  themeEffect
    {| customThemes := newCustomThemes;
       activeTheme := theme;
       themeAnimationKey := themeAnimationKey ts;
       localStorage :=
         try_setItem custom_themes_key (JSON_stringify newCustomThemes)
           (localStorage ts) |}.

(** [deleteCustomTheme] (lines 91-102), with the effect that follows when
    the active theme is reset. *)
Definition deleteCustomTheme (themeName : jsstring) (ts : ThemeState)
  : ThemeState :=
  let newCustomThemes :=
    filter (fun t => negb (jseq (Theme.name t) themeName))
           (customThemes ts) in
  let ts' :=
    {| customThemes := newCustomThemes;
       activeTheme := activeTheme ts;
       themeAnimationKey := themeAnimationKey ts;
       localStorage :=
         try_setItem custom_themes_key (JSON_stringify newCustomThemes)
           (localStorage ts) |} in
  if jseq (Theme.name (activeTheme ts)) themeName
  then themeEffect
         {| customThemes := customThemes ts';
            activeTheme := DEFAULT_THEME;
            themeAnimationKey := themeAnimationKey ts';
            localStorage := localStorage ts' |}
  else ts'.

(** [allThemes] (line 277). *)
Definition allThemes (ts : ThemeState) : list Theme.t :=
  PREDEFINED_THEMES ++ customThemes ts.

Inductive ThemeEvent :=
| SetTheme (newTheme : Theme.t)
| SaveCustomTheme (theme : Theme.t)
| DeleteCustomTheme (themeName : jsstring).

Definition theme_step (ev : ThemeEvent) (ts : ThemeState) : ThemeState :=
  match ev with
  | SetTheme th => setTheme th ts
  | SaveCustomTheme th => saveCustomTheme th ts
  | DeleteCustomTheme n => deleteCustomTheme n ts
  end.

Fixpoint theme_run (evs : list ThemeEvent) (ts : ThemeState) : ThemeState :=
  match evs with
  | [] => ts
  | ev :: rest => theme_run rest (theme_step ev ts)
  end.

(** The states of the themes the page can be in: from a first render on
    some storage, by the three handlers. *)
Definition theme_reachable (ts : ThemeState) : Prop :=
  exists s evs, ts = theme_run evs (mount s).

Definition is_edit (ev : ThemeEvent) : bool :=
  match ev with SetTheme _ => false | _ => true end.

(** The name kept in the storage follows the active theme. *)
Definition name_follows (ts : ThemeState) : Prop :=
  writable (localStorage ts) = true ->
  Theme.name (activeTheme ts) <> js "Custom" ->
  active_theme_name_item (localStorage ts)
  = Some (Theme.name (activeTheme ts)).

(** The custom themes named [n]. *)
Definition named (n : jsstring) (l : list Theme.t) : list Theme.t :=
  filter (fun t => jseq (Theme.name t) n) l.

(** The custom themes not named [n]. *)
Definition not_named (n : jsstring) (l : list Theme.t) : list Theme.t :=
  filter (fun t => negb (jseq (Theme.name t) n)) l.

End Themes.

(** ** A lone word "to" in a transcript *)

(** The word "to", in either case, stands alone at the start of [s], which
    [before] precedes: this is where [\bto\b] matches. *)
Definition lone_to_at (before : option N) (s : jsstring) : bool :=
  Transcript.word_boundary before (hd_error s)
  && Transcript.alternative_matches (js "to") s.

Fixpoint has_lone_to (before : option N) (s : jsstring) : bool :=
  match s with
  | [] => false
  | c :: t => lone_to_at before s || has_lone_to (Some c) t
  end.

(** Every alternative ends with an ASCII letter. *)
Definition ends_letter (alts : list jsstring) : bool :=
  forallb (fun alt => ascii_letter (last alt 0)) alts.

(** The code unit that precedes the place [k] code units into [s]. *)
Fixpoint char_before (before : option N) (s : jsstring) (k : nat)
  : option N :=
  match k, s with
  | S k', c :: t => char_before (Some c) t k'
  | _, _ => before
  end.

Local Open Scope string_scope.

(** The replacements of lines 200-215: those that come before the rule
    of the powers. *)
Definition symbols_before_power (transcript : jsstring) : jsstring :=
  let t := Transcript.replace_words ["one"; "won"] "1" transcript in
  let t := Transcript.replace_words ["two"; "to"; "too"] "2" t in
  let t := Transcript.replace_words ["three"] "3" t in
  let t := Transcript.replace_words ["four"; "for"] "4" t in
  let t := Transcript.replace_words ["five"] "5" t in
  let t := Transcript.replace_words ["six"] "6" t in
  let t := Transcript.replace_words ["seven"] "7" t in
  let t := Transcript.replace_words ["eight"] "8" t in
  let t := Transcript.replace_words ["nine"] "9" t in
  let t := Transcript.replace_words ["zero"] "0" t in
  let t := Transcript.replace_words ["plus"; "add"] "+" t in
  let t := Transcript.replace_words ["minus"; "subtract"] "-" t in
  let t := Transcript.replace_words ["times"; "multiply"; "multiplied by"]
             "*" t in
  let t := Transcript.replace_words ["divided by"; "divide"; "over"] "/" t in
  let t := Transcript.replace_words ["point"; "dot"] "." t in
  Transcript.replace_words ["x"] "*" t.

(** The rule of the powers and the two rules after it, the rule of the
    powers with the alternatives [alts]. *)
Definition symbols_from_power (alts : list string) (t : jsstring) : jsstring :=
  let t := Transcript.replace_words alts "^" t in
  let t := Transcript.replace_words ["open parenthesis"] "(" t in
  Transcript.replace_words ["close parenthesis"] ")" t.

Local Close Scope string_scope.

(** ** A stand-in for the imports

    An instance of the imports, to run the page on concrete inputs. Its
    engine knows decimal integer literals only: a literal of at most 15
    digits without a leading zero evaluates to itself, printed by [toFixed]
    with ten zeros after the point and by [Number(...).toString()] without
    them, as mathjs and the language do; on everything else the engine
    throws, as mathjs does on the unbalanced texts used below. It never
    calls a function of the scope, so numbers are left without content.
    Lower-casing is the ASCII one. *)

Module Stub.

Definition is_digit (c : N) : bool := (48 <=? c) && (c <=? 57).

Definition literal (e : jsstring) : bool :=
  match e with
  | [] => false
  | c :: t =>
      forallb is_digit e && (List.length e <=? 15)%nat
      && (negb (c =? 48) || (List.length t =? 0)%nat)
  end.

Definition lower (c : N) : N :=
  if (65 <=? c) && (c <=? 90) then c + 32 else c.

Fixpoint before_point (s : jsstring) : jsstring :=
  match s with
  | [] => []
  | c :: t => if c =? 46 then [] else c :: before_point t
  end.

Definition externals : Externals :=
  {| number := unit;
     num_mul := fun _ _ => tt;
     num_div := fun _ _ => tt;
     num_180 := tt;
     Math_PI := tt;
     Math_sin := fun _ => tt;
     Math_cos := fun _ => tt;
     Math_tan := fun _ => tt;
     Math_asin := fun _ => tt;
     Math_acos := fun _ => tt;
     Math_atan := fun _ => tt;
     value := jsstring;
     evaluate := fun e _ => if literal e then Some e else None;
     toFixed := fun v digits => Some (v ++ js "." ++ repeat 48 (N.to_nat digits));
     Number_toString := before_point;
     toLowerCase := map lower;
     speechRecognitionSupported := true |}.

Definition play (evs : list Event) : World :=
  run (X := externals) evs initial_world.


(** The keys [(], [2], the multiplication glyph and [3] have been pressed. *)
Definition composing : World :=
  play [Click (js "(") 1; Click (js "2") 2; Click [times_sign] 3;
        Click (js "3") 4].

(** A capture is started, [(] and [2] are typed, and [=] is pressed: the
    engine throws on the unbalanced text and the fallback call is awaited. *)
Definition awaiting_with_capture : World :=
  play [Click (js "MIC") 1; RecognitionStart; Click (js "(") 2;
        Click (js "2") 3; Click (js "=") 4].


(** [k] successful evaluations in a row: each time the buffer is cleared,
    a digit is typed and [=] is pressed; the [i]-th is made at time [i]. *)
Fixpoint evaluate_digits (k : nat) : list Event :=
  match k with
  | O => []
  | S k' =>
      evaluate_digits k'
      ++ [Click (js "AC") (N.of_nat k);
          Click [48 + N.of_nat (Nat.modulo k 10)] (N.of_nat k);
          Click (js "=") (N.of_nat k)]
  end.

End Stub.

(** A stand-in for the imports of the themes: two predefined themes, and
    a serialization that writes the names of the themes only, each closed
    by the code unit 0, after an opening bracket; it reads back the lists
    of themes without colors. *)

Module ThemeStub.

Definition dark : Theme.t :=
  {| Theme.name := js "Dark"; Theme.colors := [] |}.
Definition light : Theme.t :=
  {| Theme.name := js "Light"; Theme.colors := [] |}.
Definition ocean : Theme.t :=
  {| Theme.name := js "Ocean"; Theme.colors := [] |}.
Definition ocean' : Theme.t :=
  {| Theme.name := js "Ocean"; Theme.colors := [(js "accent", js "#00f")] |}.

Definition stringify (l : list Theme.t) : jsstring :=
  js "[" ++ flat_map (fun t => Theme.name t ++ [0]) l.

Fixpoint names (s : jsstring) (current : jsstring) : list jsstring :=
  match s with
  | [] => []
  | c :: t =>
      if c =? 0 then rev current :: names t [] else names t (c :: current)
  end.

Definition parse (s : jsstring) : option (list Theme.t) :=
  match s with
  | 91 :: rest =>
      Some (map (fun n => {| Theme.name := n; Theme.colors := [] |})
                (names rest []))
  | _ => None
  end.

Definition imports : ThemeImports :=
  {| PREDEFINED_THEMES := [dark; light];
     DEFAULT_THEME := dark;
     JSON_stringify := stringify;
     JSON_parse := parse |}.

(** A storage that holds nothing yet and can be read and written. *)
Definition empty_storage : Storage :=
  {| custom_themes_item := None; active_theme_name_item := None;
     readable := true; writable := true |}.

Definition started : ThemeState := mount (T := imports) empty_storage.

End ThemeStub.

(** * Properties *)

(** ** Equality of strings *)

Lemma jseq_true (a b : jsstring) : jseq a b = true <-> a = b.
Proof.
  unfold jseq. destruct (list_eq_dec N.eq_dec a b); split; congruence.
Qed.

Lemma jseq_false (a b : jsstring) : jseq a b = false <-> a <> b.
Proof.
  unfold jseq. destruct (list_eq_dec N.eq_dec a b); split; congruence.
Qed.

Lemma jseq_refl (a : jsstring) : jseq a a = true.
Proof. now apply jseq_true. Qed.

(** ** Facts about global replacement *)

Section ReplaceFacts.

Variables pat rep : jsstring.

Lemma replace_from_nil k : replace_from pat rep k [] = [].
Proof. destruct k; reflexivity. Qed.

(** Passing over [k] code units is dropping them. *)
Lemma replace_from_skip k s :
  replace_from pat rep k s = replace_all pat rep (skipn k s).
Proof.
  revert k. induction s as [|c t IH]; intros [|k]; try reflexivity.
  simpl. apply IH.
Qed.

(** The scan as the source reads: at a match, the replacement followed by
    the scan of what comes after the match. *)
Lemma replace_all_match s :
  s <> [] -> starts_with pat s = true ->
  replace_all pat rep s
  = rep ++ replace_all pat rep (skipn (Nat.max 1 (List.length pat)) s).
Proof.
  destruct s as [|c t]; [congruence|]. intros _ H.
  unfold replace_all at 1. simpl replace_from. simpl in H. rewrite H.
  rewrite replace_from_skip. destruct pat; reflexivity.
Qed.

Lemma replace_all_nomatch c t :
  starts_with pat (c :: t) = false ->
  replace_all pat rep (c :: t) = c :: replace_all pat rep t.
Proof.
  intros H. unfold replace_all. simpl replace_from. simpl in H. now rewrite H.
Qed.

(** A string without a match is left as it is. *)
Lemma replace_all_absent s :
  occurs pat s = false -> replace_all pat rep s = s.
Proof.
  induction s as [|c t IH]; intros H; [reflexivity|].
  simpl occurs in H. apply orb_false_iff in H. destruct H as [H1 H2].
  rewrite replace_all_nomatch by exact H1. now rewrite IH.
Qed.

(** Every code unit of the result comes from the input or from [rep]. *)
Lemma replace_from_Forall (P : N -> Prop) k s :
  Forall P rep -> Forall P s -> Forall P (replace_from pat rep k s).
Proof.
  intros Hr. revert k. induction s as [|c t IH]; intros k Hs.
  - rewrite replace_from_nil. constructor.
  - inversion Hs; subst. destruct k as [|k]; simpl replace_from.
    + destruct (starts_with pat (c :: t)).
      * apply Forall_app. split; [exact Hr | now apply IH].
      * constructor; [assumption | now apply IH].
    + now apply IH.
Qed.

End ReplaceFacts.

(** ** A replacement whose output starts like its pattern

    The two function renamings replace a pattern that starts with [l] by a
    text that starts with [l] and has no other [l]. For such a replacement,
    a pattern [q] that also starts with [l] can only be found in the output
    where it already was in the input, outside the matches. *)

Section SameHead.

Variables (a : N) (p' r' q' : jsstring).

Let pat := a :: p'.
Let rep := a :: r'.
Let q := a :: q'.

(** [a] is not in the tail of [q]. *)
Hypothesis q_tail : Forall (fun c => c <> a) q'.
(** [q] is found nowhere in [rep ++ u] but in [u]. *)
Hypothesis rep_start : forall u, starts_with q (rep ++ u) = false.
Hypothesis rep_inner : forall u, occurs q (rep ++ u) = occurs q u.

Lemma starts_with_tail_replace w t :
  Forall (fun c => c <> a) w ->
  starts_with w (replace_all pat rep t) = true -> starts_with w t = true.
Proof.
  intros Hw. revert t. induction Hw as [|d w Hd Hw IH]; intros t H.
  - reflexivity.
  - destruct t as [|c t]; [discriminate H|].
    destruct (starts_with pat (c :: t)) eqn:Hm.
    + rewrite replace_all_match in H by (congruence || exact Hm).
      simpl in H. apply andb_prop in H. destruct H as [H _].
      apply N.eqb_eq in H. congruence.
    + rewrite replace_all_nomatch in H by exact Hm.
      simpl in H |- *. apply andb_prop in H. destruct H as [H1 H2].
      rewrite H1. simpl. now apply IH.
Qed.

Lemma starts_with_replace s :
  starts_with q (replace_all pat rep s) = true ->
  starts_with q s = true /\ starts_with pat s = false.
Proof.
  intros H. destruct s as [|c t]; [discriminate H|].
  destruct (starts_with pat (c :: t)) eqn:Hm.
  - rewrite replace_all_match in H by (congruence || exact Hm).
    unfold pat in H. now rewrite rep_start in H.
  - split; [|reflexivity].
    rewrite replace_all_nomatch in H by exact Hm.
    unfold q in *. simpl in H |- *. apply andb_prop in H.
    destruct H as [H1 H2]. rewrite H1. simpl.
    now apply starts_with_tail_replace.
Qed.

Lemma occurs_outside_cons c t :
  occurs_outside q pat (c :: t)
  = (starts_with q (c :: t) && negb (starts_with pat (c :: t)))
    || occurs_outside q pat t.
Proof. reflexivity. Qed.

Lemma occurs_replace_from k s :
  occurs q (replace_from pat rep k s) = true -> occurs_outside q pat s = true.
Proof.
  revert k. induction s as [|c t IH]; intros k H.
  - rewrite replace_from_nil in H. discriminate H.
  - destruct k as [|k].
    + change (replace_from pat rep 0 (c :: t))
        with (replace_all pat rep (c :: t)) in H.
      rewrite occurs_outside_cons.
      destruct (starts_with pat (c :: t)) eqn:Hm.
      * unfold replace_all in H. simpl replace_from in H.
        change (starts_with pat (c :: t)) with (starts_with (a :: p') (c :: t)) in Hm.
        simpl in Hm. rewrite Hm in H.
        assert (Hu : occurs q (replace_from pat rep (List.length p') t) = true)
          by (rewrite <- (rep_inner _); exact H).
        apply IH in Hu. rewrite Hu. apply orb_true_r.
      * rewrite replace_all_nomatch in H by exact Hm.
        simpl occurs in H. apply orb_prop in H. destruct H as [H|H].
        -- pose proof (starts_with_replace (c :: t)) as Hs.
           rewrite replace_all_nomatch in Hs by exact Hm.
           destruct (Hs H) as [Hq _]. rewrite Hq. reflexivity.
        -- apply IH in H. rewrite H. apply orb_true_r.
    + simpl replace_from in H. apply IH in H.
      rewrite occurs_outside_cons, H. apply orb_true_r.
Qed.

Lemma occurs_outside_occurs s :
  occurs_outside q pat s = true -> occurs q s = true.
Proof.
  induction s as [|c t IH]; intros H; [discriminate H|].
  simpl in H. apply orb_prop in H. destruct H as [H|H].
  - apply andb_prop in H. destruct H as [H _]. simpl occurs.
    unfold q in H. simpl in H. rewrite H. reflexivity.
  - simpl occurs. rewrite (IH H). apply orb_true_r.
Qed.

(** The replacement brings no match of [q] that was not there. *)
Lemma replace_all_keeps_absent s :
  occurs q s = false -> occurs q (replace_all pat rep s) = false.
Proof.
  intros H. destruct (occurs q (replace_all pat rep s)) eqn:E; [|reflexivity].
  apply occurs_replace_from in E. apply occurs_outside_occurs in E. congruence.
Qed.

End SameHead.

(** ** The normalizer's output is a fixed point *)

Lemma occurs_outside_self p s : occurs_outside p p s = false.
Proof.
  induction s as [|c t IH]; [reflexivity|].
  simpl. rewrite IH. now destruct (starts_with p (c :: t)).
Qed.

(** A same-head replacement leaves no match of its own pattern. *)
Lemma replace_all_removes a p' r' s :
  Forall (fun c => c <> a) p' ->
  (forall u, starts_with (a :: p') ((a :: r') ++ u) = false) ->
  (forall u, occurs (a :: p') ((a :: r') ++ u) = occurs (a :: p') u) ->
  occurs (a :: p') (replace_all (a :: p') (a :: r') s) = false.
Proof.
  intros H1 H2 H3.
  destruct (occurs (a :: p') (replace_all (a :: p') (a :: r') s)) eqn:E;
    [|reflexivity].
  apply (occurs_replace_from a p' r' p' H1 H2 H3) in E.
  now rewrite occurs_outside_self in E.
Qed.

Lemma occurs_single c s :
  Forall (fun x => x <> c) s -> occurs [c] s = false.
Proof.
  induction 1 as [|x t Hx Ht IH]; [reflexivity|].
  simpl. rewrite IH. apply N.eqb_neq in Hx. rewrite N.eqb_sym in Hx.
  now rewrite Hx.
Qed.

(** Replacing a glyph by a text without it leaves none of it. *)
Lemma replace_single_removes c rep s :
  Forall (fun x => x <> c) rep ->
  Forall (fun x => x <> c) (replace_all [c] rep s).
Proof.
  intros Hr. induction s as [|x t IH]; [constructor|].
  unfold replace_all. simpl replace_from.
  destruct (c =? x) eqn:E; simpl.
  - apply Forall_app. split; [exact Hr | exact IH].
  - constructor; [|exact IH]. apply N.eqb_neq in E. congruence.
Qed.

Ltac ascii_free :=
  repeat constructor; intros E; discriminate E.

Lemma normalize_normal s : normal (normalize s).
Proof.
  unfold normalize.
  set (s1 := replace_all [times_sign] (js "*") s).
  set (s2 := replace_all [division_sign] (js "/") s1).
  set (s3 := replace_all [greek_pi] (js "pi") s2).
  set (s4 := replace_all (js "lg(") (js "log10(") s3).
  assert (H1 : Forall (fun x => x <> times_sign) s1)
    by (apply replace_single_removes; ascii_free).
  assert (H2 : Forall (fun x => x <> division_sign) s2)
    by (apply replace_single_removes; ascii_free).
  assert (H3 : Forall (fun x => x <> greek_pi) s3)
    by (apply replace_single_removes; ascii_free).
  assert (H4 : occurs (js "lg(") s4 = false).
  { apply (replace_all_removes 108 [103; 40] [111; 103; 49; 48; 40]).
    - ascii_free.
    - reflexivity.
    - reflexivity. }
  split.
  - do 4 (apply replace_from_Forall; [ascii_free|]). exact H1.
  - do 3 (apply replace_from_Forall; [ascii_free|]). exact H2.
  - do 2 (apply replace_from_Forall; [ascii_free|]). exact H3.
  - apply (replace_all_keeps_absent 108 [110; 40] [111; 103; 40] [103; 40]).
    + ascii_free.
    + reflexivity.
    + reflexivity.
    + exact H4.
  - apply (replace_all_removes 108 [110; 40] [111; 103; 40]).
    + ascii_free.
    + reflexivity.
    + reflexivity.
Qed.

Lemma normalize_fixes t : normal t -> normalize t = t.
Proof.
  intros [H1 H2 H3 H4 H5]. unfold normalize.
  rewrite (replace_all_absent _ _ t) by now apply occurs_single.
  rewrite (replace_all_absent _ _ t) by now apply occurs_single.
  rewrite (replace_all_absent _ _ t) by now apply occurs_single.
  rewrite (replace_all_absent _ _ t) by exact H4.
  now apply replace_all_absent.
Qed.

(** C4: rewriting a text the normalizer has produced changes nothing: for
    every input, [normalize (normalize s) = normalize s]; the text
    2, multiplication glyph, 3, division glyph, 4 becomes "2*3/4", and
    "2*3/4" stays "2*3/4". *)
Theorem normalize_idempotent :
  (forall s, normalize (normalize s) = normalize s)
  /\ normalize (js "2" ++ [times_sign] ++ js "3" ++ [division_sign] ++ js "4")
     = js "2*3/4"
  /\ normalize (js "2*3/4") = js "2*3/4".
Proof.
  split; [|split].
  - intros s. apply normalize_fixes, normalize_normal.
  - reflexivity.
  - reflexivity.
Qed.

(** ** The scope and the history selection *)

Section AppFacts.

Context {X : Externals}.

Local Arguments firstn : simpl never.

(** C5: the scope handed to the engine is a function of the angle mode
    alone. In degrees it binds exactly sin, cos, tan, asin, acos and atan:
    the first three apply the radian function to [x * PI / 180], the last
    three return the radian result [* 180 / PI]; in radians it is empty, so
    that the engine's own functions are the ones used. *)
Theorem scope_follows_angle_mode :
  (forall st1 st2, isDegrees st1 = isDegrees st2 ->
     evaluation_scope st1 = evaluation_scope st2)
  /\ (forall st, isDegrees st = false -> evaluation_scope st = [])
  /\ (forall st, isDegrees st = true ->
        let sc := evaluation_scope st in
        map fst sc
        = [js "sin"; js "cos"; js "tan"; js "asin"; js "acos"; js "atan"]
        /\ lookup (js "sin") sc
           = Some (fun x => Math_sin (num_div (num_mul x Math_PI) num_180))
        /\ lookup (js "cos") sc
           = Some (fun x => Math_cos (num_div (num_mul x Math_PI) num_180))
        /\ lookup (js "tan") sc
           = Some (fun x => Math_tan (num_div (num_mul x Math_PI) num_180))
        /\ lookup (js "asin") sc
           = Some (fun x => num_div (num_mul (Math_asin x) num_180) Math_PI)
        /\ lookup (js "acos") sc
           = Some (fun x => num_div (num_mul (Math_acos x) num_180) Math_PI)
        /\ lookup (js "atan") sc
           = Some (fun x => num_div (num_mul (Math_atan x) num_180) Math_PI)
        /\ forall name, ~ In name (map fst sc) -> lookup name sc = None).
Proof.
  split; [|split].
  - intros st1 st2 H. unfold evaluation_scope. now rewrite H.
  - intros st H. unfold evaluation_scope. now rewrite H.
  - intros st H sc. subst sc. unfold evaluation_scope. rewrite H.
    repeat (split; [reflexivity|]).
    intros name Hn. unfold lookup, scope.
    destruct (find _ _) as [[k f]|] eqn:E; [|reflexivity].
    apply find_some in E. destruct E as [Hin Hk]. simpl in Hk.
    apply jseq_true in Hk. subst k. exfalso. apply Hn.
    change name with (fst (name, f)). now apply in_map.
Qed.

(** ** The transcript handler *)

Lemma allowed_spec c :
  Transcript.allowed c = true <-> In c (js "0123456789+-*/^().").
Proof.
  unfold Transcript.allowed. rewrite orb_true_iff, andb_true_iff.
  rewrite !N.leb_le, existsb_exists. split.
  - intros [[H1 H2]|[x [Hx Hc]]].
    + assert (H : c = 48 \/ c = 49 \/ c = 50 \/ c = 51 \/ c = 52 \/ c = 53
                  \/ c = 54 \/ c = 55 \/ c = 56 \/ c = 57) by lia.
      cbn. intuition auto.
    + apply N.eqb_eq in Hc. subst x. cbn in Hx |- *. intuition auto.
  - cbn. intros H.
    repeat (destruct H as [H|H];
            [subst c; first [left; split; lia
                            | right; eexists; split;
                              [|apply N.eqb_refl]; cbn; intuition auto]|]).
    destruct H.
Qed.

Lemma sanitized_allowed lowered :
  Forall (fun c => Transcript.allowed c = true)
         (Transcript.sanitizedTranscript lowered).
Proof.
  apply Forall_forall. intros c H. unfold Transcript.sanitizedTranscript in H.
  now apply filter_In in H.
Qed.

Lemma filter_none {A} (f : A -> bool) l :
  Forall (fun x => f x = false) l -> filter f l = [].
Proof.
  induction 1 as [|x l Hx _ IH]; [reflexivity|]. simpl. now rewrite Hx.
Qed.

(** C8: the transcript handler is a total function of the transcript and
    the state; what it makes of a lower-cased transcript holds only
    characters among [0-9 + - * / ^ ( ) .]; it is appended to the input
    buffer, which keeps what it held; a transcript in which no word is
    replaced and no such character stands appends nothing; and
    "two plus three times four" appends "2+3*4". *)
Theorem transcript_sanitized_and_appended :
  (forall lowered,
     Forall (fun c => In c (js "0123456789+-*/^()."))
            (Transcript.sanitizedTranscript lowered))
  /\ (forall transcript st,
        input (recognition_onresult transcript st)
        = input st ++ Transcript.sanitizedTranscript (toLowerCase transcript))
  /\ (forall lowered,
        Transcript.spoken_to_symbols lowered = lowered ->
        Forall (fun c => Transcript.allowed c = false) lowered ->
        Transcript.sanitizedTranscript lowered = [])
  /\ Transcript.sanitizedTranscript (js "hello world") = []
  /\ Transcript.sanitizedTranscript (js "two plus three times four")
     = js "2+3*4".
Proof.
  split; [|split; [|split; [|split]]].
  - intros lowered. eapply Forall_impl; [|apply sanitized_allowed].
    intros c. apply allowed_spec.
  - reflexivity.
  - intros lowered H1 H2. unfold Transcript.sanitizedTranscript.
    rewrite H1. now apply filter_none.
  - reflexivity.
  - reflexivity.
Qed.

(** ** The fallback is called when, and only when, the primary path throws *)

Lemma handleCalculate_empty now w :
  input (ui w) = [] -> handleCalculate now w = w.
Proof. intros H. unfold handleCalculate. now rewrite H. Qed.

Lemma handleCalculate_primary now w r :
  input (ui w) <> [] -> try_primary (ui w) = Some r ->
  handleCalculate now w
  = {| ui :=
         setIsLoading false
           (setIsGemini false
              (setInput (fun _ => r)
                 (setHistory
                    (push_history {| HistoryItem.input := input (ui w);
                                     HistoryItem.result := r;
                                     HistoryItem.date := now |})
                    (setResult r
                       (setResult [] (setIsLoading true (ui w)))))));
       inflight := inflight w;
       calls := calls w |}.
Proof.
  intros Hi Hp. unfold handleCalculate. rewrite Hp.
  destruct (input (ui w)); [congruence | reflexivity].
Qed.

Lemma handleCalculate_fallback now w :
  input (ui w) <> [] -> try_primary (ui w) = None ->
  handleCalculate now w
  = {| ui := setResult [] (setIsLoading true (ui w));
       inflight := inflight w ++ [input (ui w)];
       calls := calls w ++ [input (ui w)] |}.
Proof.
  intros Hi Hp. unfold handleCalculate. rewrite Hp.
  destruct (input (ui w)); [congruence | reflexivity].
Qed.

(** A key pressed while an evaluation is in progress does nothing. *)
Lemma handleButtonClick_loading v now w :
  isLoading (ui w) = true -> handleButtonClick v now w = w.
Proof. intros H. unfold handleButtonClick. now rewrite H. Qed.

Lemma handleButtonClick_cases v now w :
  (isLoading (ui w) = true /\ handleButtonClick v now w = w)
  \/ (isLoading (ui w) = false /\ v = js "="
      /\ handleButtonClick v now w = handleCalculate now w)
  \/ (isLoading (ui w) = false /\ v <> js "="
      /\ exists f, quiet f /\ handleButtonClick v now w = with_ui f w).
Proof.
  unfold handleButtonClick.
  destruct (isLoading (ui w)) eqn:HL; [now left|].
  destruct (lookup v (functions (is2nd (ui w)))) as [token|] eqn:Hf.
  - right. right. split; [reflexivity|]. split.
    + intros ->. destruct (is2nd (ui w)); discriminate Hf.
    + eexists. split; [|reflexivity]. intros st. split; reflexivity.
  - destruct (jseq v (js "=")) eqn:Heq.
    + right. left. apply jseq_true in Heq. subst v. now repeat split.
    + apply jseq_false in Heq. right. right.
      split; [reflexivity|]. split; [exact Heq|].
      repeat match goal with
             | |- context [if ?b then _ else _] => destruct b
             end;
        (eexists; split; [|reflexivity]; intros st; unfold handleMicClick;
         repeat match goal with
                | |- context [if ?b then _ else _] => destruct b
                end; split; reflexivity).
Qed.

Lemma step_calls ev w :
  calls (step ev w) = calls w
  \/ exists now,
       ev = Click (js "=") now /\ isLoading (ui w) = false
       /\ input (ui w) <> [] /\ try_primary (ui w) = None
       /\ calls (step ev w) = calls w ++ [input (ui w)].
Proof.
  destruct ev as [v now|v|o now| | |e|t]; try (now left).
  - simpl. destruct (handleButtonClick_cases v now w)
      as [[_ H]|[(HL & Hv & H)|(HL & Hv & f & Hf & H)]]; rewrite H.
    + now left.
    + destruct (input (ui w)) as [|c t] eqn:Hi.
      * left. now rewrite handleCalculate_empty.
      * destruct (try_primary (ui w)) as [r|] eqn:Hp.
        -- left. erewrite handleCalculate_primary; [reflexivity| |exact Hp].
           congruence.
        -- right. exists now. subst v. rewrite <- Hi.
           rewrite handleCalculate_fallback by congruence.
           repeat split; auto. congruence.
    + now left.
  - simpl. destruct (inflight w); now left.
Qed.


(** ** Invariants of the page *)

Lemma step_loading_inv ev w : loading_inv w -> loading_inv (step ev w).
Proof.
  unfold loading_inv. intros H.
  destruct ev as [v now|v|o now| | |e|t]; simpl; try exact H.
  - destruct (handleButtonClick_cases v now w)
      as [[_ E]|[(HL & Hv & E)|(HL & Hv & f & Hf & E)]]; rewrite E.
    + exact H.
    + rewrite HL in H. destruct (input (ui w)) as [|c t] eqn:Hi.
      * rewrite handleCalculate_empty by exact Hi. now rewrite HL.
      * destruct (try_primary (ui w)) as [r|] eqn:Hp.
        -- erewrite handleCalculate_primary; [|congruence|exact Hp].
           exact H.
        -- rewrite handleCalculate_fallback by congruence.
           simpl. rewrite H. now eexists.
    + simpl. destruct (Hf (ui w)) as [-> _]. exact H.
  - destruct (inflight w) as [|c rest] eqn:Hi.
    + simpl. rewrite Hi. exact H.
    + simpl. destruct (isLoading (ui w)).
      * destruct H as [c' H]. congruence.
      * discriminate H.
Qed.

Lemma reachable_loading_inv w : reachable w -> loading_inv w.
Proof.
  intros [evs ->].
  assert (G : forall w0, loading_inv w0 -> loading_inv (run evs w0)).
  { induction evs as [|ev evs IH]; intros w0 H0; [exact H0|].
    simpl. apply IH. now apply step_loading_inv. }
  apply G. reflexivity.
Qed.

(** The history changes only by a successful evaluation, which pushes
    the entry it records. *)
Lemma step_history ev w :
  history (ui (step ev w))
  = match recorded ev w with
    | Some e => push_history e (history (ui w))
    | None => history (ui w)
    end.
Proof.
  destruct ev as [v now|v|o now| | |e|t]; try reflexivity.
  - simpl. destruct (handleButtonClick_cases v now w)
      as [[HL E]|[(HL & Hv & E)|(HL & Hv & f & Hf & E)]]; rewrite E, HL.
    + reflexivity.
    + subst v. simpl. destruct (input (ui w)) as [|c t] eqn:Hi.
      * rewrite handleCalculate_empty by exact Hi. reflexivity.
      * change (jseq (c :: t) []) with false. simpl negb.
        destruct (try_primary (ui w)) as [r|] eqn:Hp.
        -- erewrite handleCalculate_primary; [|congruence|exact Hp].
           rewrite Hi. reflexivity.
        -- rewrite handleCalculate_fallback by congruence. reflexivity.
    + apply jseq_false in Hv. rewrite Hv. simpl. apply Hf.
  - simpl. destruct (inflight w) as [|c rest].
    + now destruct o as [[r|]|].
    + destruct o as [[r|]|]; simpl; try reflexivity.
      now destruct (jseq r (js "Error")).
Qed.

Lemma push_history_length e h : (List.length (push_history e h) <= 20)%nat.
Proof. apply firstn_le_length. Qed.

Lemma step_history_length ev w :
  (List.length (history (ui w)) <= 20)%nat ->
  (List.length (history (ui (step ev w))) <= 20)%nat.
Proof.
  intros H. rewrite step_history.
  destruct (recorded ev w); [apply push_history_length | exact H].
Qed.

Lemma firstn_app_firstn {A} n (a b : list A) :
  firstn n (a ++ firstn n b) = firstn n (a ++ b).
Proof.
  rewrite !firstn_app, firstn_firstn. f_equal. f_equal. lia.
Qed.

Lemma run_history evs : forall w,
  (List.length (history (ui w)) <= 20)%nat ->
  history (ui (run evs w)) = firstn 20 (evaluations evs w ++ history (ui w))
  /\ (List.length (history (ui (run evs w))) <= 20)%nat.
Proof.
  induction evs as [|ev evs IH]; intros w Hw.
  - simpl. split; [|exact Hw]. symmetry. now apply firstn_all2.
  - simpl. destruct (IH (step ev w) (step_history_length ev w Hw)) as [E L].
    split; [|exact L]. rewrite E, step_history, <- app_assoc.
    destruct (recorded ev w) as [e|]; [|reflexivity].
    unfold push_history. apply firstn_app_firstn.
Qed.

Lemma push_history_cases e h :
  (List.length h <= 20)%nat ->
  push_history e h
  = if (List.length h <? 20)%nat then e :: h else e :: removelast h.
Proof.
  intros H. unfold push_history. change (firstn 20 (e :: h)) with (e :: firstn 19 h).
  destruct (Nat.ltb_spec (List.length h) 20) as [L|L]; f_equal.
  - apply firstn_all2. lia.
  - rewrite removelast_firstn_len. f_equal. lia.
Qed.

(** C3: in every reachable state the history holds at most 20 entries and
    is the list of the entries of the successful evaluations so far, the
    latest first, cut after the 20th; a successful evaluation, primary or
    fallback, puts its entry in front, and drops the last entry when 20
    were held; after 21 successful evaluations the history is the list of
    their entries without the first one made. *)
Theorem history_capped_latest_first :
  forall evs : list Event,
    let w := run evs initial_world in
    let made := evaluations evs initial_world in
    (List.length (history (ui w)) <= 20)%nat
    /\ history (ui w) = firstn 20 made
    /\ (forall ev,
          history (ui (step ev w))
          = match recorded ev w with
            | Some e =>
                if (List.length (history (ui w)) <? 20)%nat
                then e :: history (ui w)
                else e :: removelast (history (ui w))
            | None => history (ui w)
            end)
    /\ (List.length made = 21%nat -> history (ui w) = removelast made).
Proof.
  intros evs w made.
  destruct (run_history evs initial_world) as [E L]; [simpl; lia|].
  rewrite app_nil_r in E. fold w in E, L. fold made in E.
  split; [exact L|]. split; [exact E|]. split.
  - intros ev. rewrite step_history.
    destruct (recorded ev w); [now apply push_history_cases | reflexivity].
  - intros H. rewrite E, removelast_firstn_len, H. reflexivity.
Qed.

(** ** A failed fallback *)

(** While a call is awaited, every event other than its settling leaves
    [isLoading], the awaited calls and the history as they are. *)
Lemma step_while_loading ev w :
  isLoading (ui w) = true -> is_settled ev = false ->
  isLoading (ui (step ev w)) = true
  /\ inflight (step ev w) = inflight w
  /\ history (ui (step ev w)) = history (ui w).
Proof.
  intros HL Hs. destruct ev as [v now|v|o now| | |e|t];
    try discriminate Hs; try (simpl; now rewrite HL).
  simpl. rewrite handleButtonClick_loading by exact HL. now rewrite HL.
Qed.

Lemma run_while_loading evs : forall w,
  isLoading (ui w) = true -> Forall (fun ev => is_settled ev = false) evs ->
  isLoading (ui (run evs w)) = true
  /\ inflight (run evs w) = inflight w
  /\ history (ui (run evs w)) = history (ui w).
Proof.
  induction evs as [|ev evs IH]; intros w HL Hs; [now repeat split|].
  inversion Hs as [|? ? H1 H2]; subst.
  destruct (step_while_loading ev w HL H1) as (A & B & C).
  destruct (IH (step ev w) A H2) as (A' & B' & C').
  simpl. rewrite A', B', C'. now rewrite B, C.
Qed.

Lemma resume_failed captured o now st :
  fallback_failed o ->
  let st' := handleCalculate_resume captured o now st in
  result st' = (if match o with Rejected => true | _ => false end
                then js "API Error" else js "Error")
  /\ input st' = [] /\ history st' = history st /\ isLoading st' = false.
Proof.
  intros [ -> | [ -> | -> ] ]; repeat split; reflexivity.
Qed.

(** C2: take an evaluation started in a reachable idle state on a
    non-empty input whose primary path throws, any events of the page while
    the fallback call is awaited, and a call that fails (it is rejected,
    or resolves with the marker "Error" or with nothing). When the call
    has settled, the display shows an error marker ("API Error" for a
    rejection, "Error" otherwise), the input buffer is empty, and the
    history is the one the evaluation started with. *)
Theorem failed_fallback_end_state :
  forall (w0 : World) (t0 : N) (during : list Event)
         (o : GeminiOutcome) (t1 : N),
    reachable w0 ->
    isLoading (ui w0) = false ->
    input (ui w0) <> [] ->
    try_primary (ui w0) = None ->
    Forall (fun ev => is_settled ev = false) during ->
    fallback_failed o ->
    let w := step (Settled o t1)
               (run during (step (Click (js "=") t0) w0)) in
    error_marker (result (ui w))
    /\ (o = Rejected -> result (ui w) = js "API Error")
    /\ (o <> Rejected -> result (ui w) = js "Error")
    /\ input (ui w) = []
    /\ history (ui w) = history (ui w0)
    /\ isLoading (ui w) = false
    /\ inflight w = [].
Proof.
  intros w0 t0 during o t1 Hr HL Hi Hp Hd Ho.
  pose proof (reachable_loading_inv w0 Hr) as Hinv.
  unfold loading_inv in Hinv. rewrite HL in Hinv.
  set (w1 := step (Click (js "=") t0) w0).
  assert (E1 : w1 = {| ui := setResult [] (setIsLoading true (ui w0));
                       inflight := [input (ui w0)];
                       calls := calls w0 ++ [input (ui w0)] |}).
  { subst w1. simpl. unfold handleButtonClick. rewrite HL. simpl.
    rewrite handleCalculate_fallback by assumption. now rewrite Hinv. }
  assert (L1 : isLoading (ui w1) = true) by now rewrite E1.
  assert (I1 : inflight w1 = [input (ui w0)]) by now rewrite E1.
  assert (H1 : history (ui w1) = history (ui w0)) by now rewrite E1.
  destruct (run_while_loading during w1 L1 Hd) as (A & B & C).
  rewrite I1 in B. rewrite H1 in C.
  intros w. subst w. simpl step. rewrite B.
  destruct (resume_failed (input (ui w0)) o t1 (ui (run during w1)) Ho)
    as (R & I & H & L).
  simpl ui. simpl inflight. rewrite I, H, L, C, R.
  repeat split; try reflexivity.
  - unfold error_marker. destruct o as [?|]; auto.
  - now intros ->.
  - intros Hn. destruct o as [?|]; [reflexivity | congruence].
Qed.

(** ** Dictation and the keypad while an evaluation is in progress *)






(** C9: selecting a history entry puts the entry's stored result text both
    in the input buffer and on the display, whatever the buffer held and
    whether or not an evaluation is in progress; the handler does so with
    any text it is given. *)
Theorem history_selection_restores_result :
  (forall (e : HistoryItem.t) (st : State),
     input (selectHistoryEntry e st) = HistoryItem.result e
     /\ result (selectHistoryEntry e st) = HistoryItem.result e)
  /\ (forall (v : jsstring) (w : World),
        input (ui (step (HistoryClick v) w)) = v
        /\ result (ui (step (HistoryClick v) w)) = v
        /\ history (ui (step (HistoryClick v) w)) = history (ui w)).
Proof. split; intros; repeat split. Qed.

(** ** Further properties of the evaluation cycle *)

(** In every reachable state at most one fallback call is awaited, and one
    is awaited exactly while [isLoading] is set: the guard on [isLoading]
    at the head of the keypad handler keeps a second evaluation from
    starting. *)
Theorem single_call_in_flight :
  forall w : World,
    reachable w ->
    (List.length (inflight w) <= 1)%nat
    /\ (isLoading (ui w) = true <-> exists c, inflight w = [c])
    /\ (isLoading (ui w) = false <-> inflight w = []).
Proof.
  intros w Hr. pose proof (reachable_loading_inv w Hr) as H.
  unfold loading_inv in H. destruct (isLoading (ui w)).
  - destruct H as [c H]. rewrite H. repeat split; auto.
    + now exists c.
    + discriminate.
    + discriminate.
  - rewrite H. repeat split; auto.
    + discriminate.
    + intros [c Hc]. discriminate Hc.
Qed.

(** ** The history is ordered by date *)

Lemma recorded_time ev w e :
  recorded ev w = Some e -> event_time ev = Some (HistoryItem.date e).
Proof.
  destruct ev as [v now|v|o now| | |err|t]; simpl; try discriminate.
  - destruct (_ && _); [|discriminate].
    destruct (try_primary (ui w)); simpl; [|discriminate].
    now intros [= <-].
  - destruct o as [[r|]|]; try discriminate.
    destruct (inflight w); [discriminate|].
    destruct (jseq r (js "Error")); [discriminate|]. now intros [= <-].
Qed.

(** What holds of every element holds of every element of a prefix. *)
Lemma firstn_Forall {A} (P : A -> Prop) (l : list A) (n : nat) :
  Forall P l -> Forall P (firstn n l).
Proof.
  intros H. rewrite <- (firstn_skipn n l) in H. now apply Forall_app in H.
Qed.

Lemma StronglySorted_firstn {A} (R : A -> A -> Prop) n l :
  StronglySorted R l -> StronglySorted R (firstn n l).
Proof.
  intros H. revert n. induction H as [|a l Hl IH Ha]; intros [|n];
    try constructor.
  - apply IH.
  - now apply firstn_Forall.
Qed.

Lemma step_latest_first ev w t0 :
  latest_first (history (ui w)) ->
  Forall (fun e => HistoryItem.date e <= t0) (history (ui w)) ->
  chronological t0 [ev] ->
  let t1 := match event_time ev with Some t => t | None => t0 end in
  latest_first (history (ui (step ev w)))
  /\ Forall (fun e => HistoryItem.date e <= t1) (history (ui (step ev w))).
Proof.
  intros Hs Hb Hc t1. rewrite step_history.
  destruct (recorded ev w) as [e|] eqn:Hr.
  - apply recorded_time in Hr. subst t1. simpl in Hc. rewrite Hr in *.
    destruct Hc as [Hc _].
    assert (Hb' : Forall (fun b => HistoryItem.date b <= HistoryItem.date e)
                    (history (ui w))).
    { eapply Forall_impl; [|exact Hb]. simpl. intros b Hb0. lia. }
    split.
    + apply StronglySorted_firstn. now constructor.
    + apply firstn_Forall. constructor; [lia | exact Hb'].
  - split; [exact Hs|]. subst t1. simpl in Hc.
    destruct (event_time ev) as [t|]; [|exact Hb].
    destruct Hc as [Hc _]. eapply Forall_impl; [|exact Hb].
    simpl. intros b Hb0. lia.
Qed.

Lemma run_latest_first evs : forall w t0,
  latest_first (history (ui w)) ->
  Forall (fun e => HistoryItem.date e <= t0) (history (ui w)) ->
  chronological t0 evs ->
  latest_first (history (ui (run evs w))).
Proof.
  induction evs as [|ev evs IH]; intros w t0 Hs Hb Hc; [exact Hs|].
  simpl run.
  assert (Hc1 : chronological t0 [ev]).
  { simpl in Hc |- *. destruct (event_time ev); tauto. }
  destruct (step_latest_first ev w t0 Hs Hb Hc1) as [Hs' Hb'].
  apply (IH _ _ Hs' Hb'). simpl in Hc.
  destruct (event_time ev); tauto.
Qed.

(** The history is ordered by recency: in every state reached by events
    whose clock readings do not go back, the dates of the history entries
    do not increase from the front to the back. *)
Theorem history_ordered_by_date :
  forall evs : list Event,
    chronological 0 evs ->
    latest_first (history (ui (run evs initial_world))).
Proof.
  intros evs H.
  apply (run_latest_first evs initial_world 0); [constructor|constructor|exact H].
Qed.

End AppFacts.

(** ** Transcripts without letters, and what the normalizer makes of a
    dictated text *)

Lemma fold_case_letter a c :
  ascii_letter a = true -> ascii_letter c = false ->
  (Transcript.fold_case a =? Transcript.fold_case c) = false.
Proof.
  unfold ascii_letter, Transcript.fold_case. intros Ha Hc.
  apply N.eqb_neq.
  destruct (N.leb_spec 97 a), (N.leb_spec a 122), (N.leb_spec 65 a),
    (N.leb_spec a 90), (N.leb_spec 97 c), (N.leb_spec c 122),
    (N.leb_spec 65 c), (N.leb_spec c 90);
    simpl in *; try discriminate; lia.
Qed.

Lemma word_match_letter_free alts before c t :
  heads_letter alts = true -> ascii_letter c = false ->
  Transcript.word_match alts before (c :: t) = None.
Proof.
  intros Ha Hc. unfold Transcript.word_match.
  destruct (Transcript.word_boundary before (hd_error (c :: t)));
    [|reflexivity].
  assert (E : find (fun alt => Transcript.alternative_matches alt (c :: t)) alts
              = None).
  { induction alts as [|alt alts IH]; [reflexivity|].
    simpl in Ha. apply andb_prop in Ha. destruct Ha as [H1 H2].
    simpl. destruct alt as [|a alt']; [discriminate H1|].
    unfold Transcript.alternative_matches at 1. simpl Transcript.starts_with_ci.
    rewrite (fold_case_letter a c H1 Hc). simpl. now apply IH. }
  now rewrite E.
Qed.

Lemma replace_words_from_letter_free alts rep s :
  heads_letter alts = true ->
  Forall (fun c => ascii_letter c = false) s ->
  forall before, Transcript.replace_words_from alts rep 0 before s = s.
Proof.
  intros Ha Hs. induction Hs as [|c t Hc Ht IH]; intros before;
    [reflexivity|].
  simpl. rewrite (word_match_letter_free alts before c t Ha Hc).
  now rewrite IH.
Qed.

Lemma replace_words_letter_free alts rep s :
  heads_letter (map js alts) = true ->
  Forall (fun c => ascii_letter c = false) s ->
  Transcript.replace_words alts rep s = s.
Proof.
  intros Ha Hs. unfold Transcript.replace_words.
  now apply replace_words_from_letter_free.
Qed.

Lemma spoken_to_symbols_letter_free t :
  Forall (fun c => ascii_letter c = false) t ->
  Transcript.spoken_to_symbols t = t.
Proof.
  intros H. unfold Transcript.spoken_to_symbols. cbv zeta.
  repeat (rewrite (replace_words_letter_free _ _ t); [|reflexivity|exact H]).
  reflexivity.
Qed.

Lemma filter_all {A} (f : A -> bool) l :
  Forall (fun x => f x = true) l -> filter f l = l.
Proof.
  induction 1 as [|x l Hx _ IH]; [reflexivity|]. simpl. now rewrite Hx, IH.
Qed.

Lemma allowed_not_letter c :
  Transcript.allowed c = true -> ascii_letter c = false.
Proof.
  intros H. apply allowed_spec in H. cbn in H.
  repeat (destruct H as [H|H]; [subst c; reflexivity|]). destruct H.
Qed.

(** A transcript in which no ASCII letter stands (the recognizer has
    written the figures and signs itself) is rewritten by none of the
    nineteen replacements: what is appended is the transcript without the
    characters outside [0-9 + - * / ^ ( ) .], in their order; and a
    transcript made of such characters only is appended as it is. *)
Theorem letter_free_transcript_kept :
  forall t : jsstring,
    Forall (fun c => ascii_letter c = false) t ->
    Transcript.spoken_to_symbols t = t
    /\ Transcript.sanitizedTranscript t = filter Transcript.allowed t
    /\ (Forall (fun c => Transcript.allowed c = true) t ->
        Transcript.sanitizedTranscript t = t).
Proof.
  intros t H. pose proof (spoken_to_symbols_letter_free t H) as E.
  split; [exact E|]. unfold Transcript.sanitizedTranscript. rewrite E.
  split; [reflexivity|]. apply filter_all.
Qed.

(** Rewriting a text the transcript handler has produced gives the same
    text: the handler's output is a fixed point of the handler. *)
Theorem sanitizedTranscript_idempotent :
  forall t : jsstring,
    Transcript.sanitizedTranscript (Transcript.sanitizedTranscript t)
    = Transcript.sanitizedTranscript t.
Proof.
  intros t. pose proof (sanitized_allowed t) as H.
  apply letter_free_transcript_kept; [|exact H].
  eapply Forall_impl; [|exact H]. intros c. apply allowed_not_letter.
Qed.

Lemma occurs_head_absent a p s :
  Forall (fun c => c <> a) s -> occurs (a :: p) s = false.
Proof.
  induction 1 as [|c t Hc _ IH]; [reflexivity|].
  simpl. rewrite IH. apply N.eqb_neq in Hc. rewrite N.eqb_sym in Hc.
  now rewrite Hc.
Qed.

Lemma plain_normal t : plain t -> normal t.
Proof.
  intros H. unfold plain in H.
  split; try (eapply Forall_impl; [|exact H]; simpl; tauto).
  - apply (occurs_head_absent 108 [103; 40]).
    eapply Forall_impl; [|exact H]. simpl. tauto.
  - apply (occurs_head_absent 108 [110; 40]).
    eapply Forall_impl; [|exact H]. simpl. tauto.
Qed.

Lemma allowed_plain t :
  Forall (fun c => Transcript.allowed c = true) t -> plain t.
Proof.
  intros H. eapply Forall_impl; [|exact H]. intros c Hc.
  apply allowed_spec in Hc. cbn in Hc.
  repeat (destruct Hc as [Hc|Hc];
          [subst c; repeat split; discriminate|]).
  destruct Hc.
Qed.

(** The normalizer leaves alone every text without the three glyphs and
    without the letter l; so a dictated text, and the buffer made of
    dictated texts only, reaches the engine as it was dictated. *)
Theorem normalize_keeps_plain_text :
  (forall t, plain t -> normalize t = t)
  /\ (forall t,
        normalize (Transcript.sanitizedTranscript t)
        = Transcript.sanitizedTranscript t)
  /\ (forall t u,
        normalize (Transcript.sanitizedTranscript t
                   ++ Transcript.sanitizedTranscript u)
        = Transcript.sanitizedTranscript t ++ Transcript.sanitizedTranscript u).
Proof.
  assert (G : forall t, plain t -> normalize t = t)
    by (intros t H; now apply normalize_fixes, plain_normal).
  split; [exact G|]. split.
  - intros t. apply G, allowed_plain, sanitized_allowed.
  - intros t u. apply G, allowed_plain, Forall_app.
    split; apply sanitized_allowed.
Qed.

(** ** More invariants of the evaluation cycle *)

Section SessionFacts.

Context {X : Externals}.

Local Arguments firstn : simpl never.

Lemma step_nonempty_inputs ev w :
  nonempty_inputs w -> nonempty_inputs (step ev w).
Proof.
  intros (Hh & Hi & Hc).
  destruct ev as [v now|v|o now| | |e|t]; try (now repeat split).
  - simpl. destruct (handleButtonClick_cases v now w)
      as [[_ E]|[(HL & Hv & E)|(HL & Hv & f & Hf & E)]]; rewrite E.
    + now repeat split.
    + destruct (input (ui w)) as [|c t] eqn:Hin.
      * rewrite handleCalculate_empty by exact Hin. now repeat split.
      * assert (Hne : input (ui w) <> []) by congruence.
        destruct (try_primary (ui w)) as [r|] eqn:Hp.
        -- rewrite (handleCalculate_primary now w r Hne Hp).
           repeat split; simpl; try assumption.
           unfold push_history. apply firstn_Forall.
           constructor; [exact Hne | exact Hh].
        -- rewrite (handleCalculate_fallback now w Hne Hp).
           repeat split; simpl; try assumption;
             apply Forall_app; split; try assumption;
             constructor; [exact Hne | constructor | exact Hne | constructor].
    + repeat split; simpl; try assumption.
      destruct (Hf (ui w)) as [_ ->]. exact Hh.
  - simpl. destruct (inflight w) as [|c rest] eqn:Hin.
    { repeat split; try assumption. rewrite Hin. constructor. }
    inversion Hi as [|? ? Hc0 Hrest]; subst.
    repeat split; simpl; try assumption.
    destruct o as [[r|]|]; simpl; try exact Hh.
    destruct (jseq r (js "Error")); simpl; [exact Hh|].
    unfold push_history. apply firstn_Forall. constructor; [exact Hc0 | exact Hh].
Qed.

(** In every reachable state each history entry, each awaited call and
    each call ever made to the fallback carries a non-empty input text:
    [=] pressed on an empty buffer starts nothing. *)
Theorem recorded_inputs_nonempty :
  forall w : World, reachable w -> nonempty_inputs w.
Proof.
  intros w [evs ->].
  assert (G : forall w0, nonempty_inputs w0 -> nonempty_inputs (run evs w0)).
  { induction evs as [|ev evs IH]; intros w0 H0; [exact H0|].
    simpl. apply IH. now apply step_nonempty_inputs. }
  apply G. repeat split; constructor.
Qed.

Lemma reachable_history_length w :
  reachable w -> (List.length (history (ui w)) <= 20)%nat.
Proof.
  intros [evs ->]. apply (run_history evs initial_world). simpl. lia.
Qed.

(** Whatever happens from a reachable state, the history is the old one
    with the entries of the successful evaluations made since put in
    front, cut after the 20th: it never gets shorter, and a run without a
    successful evaluation (clearing, deleting, dictating, selecting an
    entry, failing evaluations) leaves it as it is. *)
Theorem history_only_grows :
  forall (w : World) (evs : list Event),
    reachable w ->
    history (ui (run evs w))
    = firstn 20 (evaluations evs w ++ history (ui w))
    /\ (List.length (history (ui w))
        <= List.length (history (ui (run evs w))))%nat
    /\ (evaluations evs w = [] -> history (ui (run evs w)) = history (ui w)).
Proof.
  intros w evs Hr. pose proof (reachable_history_length w Hr) as L.
  destruct (run_history evs w L) as [E _]. split; [exact E|]. split.
  - rewrite E, length_firstn, length_app. lia.
  - intros H0. rewrite E, H0. simpl. now apply firstn_all2.
Qed.


Lemma handleButtonClick_errorKey v now w :
  errorKey (ui (handleButtonClick v now w)) = errorKey (ui w).
Proof.
  unfold handleButtonClick, handleCalculate, handleMicClick.
  repeat match goal with
         | |- context [if ?b then _ else _] => destruct b
         | |- context [match ?x with _ => _ end] => destruct x
         end;
    simpl;
    repeat match goal with
           | |- context [if ?b then _ else _] => destruct b
           end;
    reflexivity.
Qed.

Lemma step_errorKey ev w :
  errorKey (ui (step ev w))
  = errorKey (ui w) + (if failed_evaluation ev w then 1 else 0).
Proof.
  destruct ev as [v now|v|o now| | |e|t];
    try (simpl; unfold failed_evaluation; now rewrite N.add_0_r).
  - simpl. unfold failed_evaluation.
    now rewrite handleButtonClick_errorKey, N.add_0_r.
  - simpl. unfold failed_evaluation.
    destruct (inflight w) as [|c rest]; [now rewrite N.add_0_r|].
    destruct o as [[r|]|]; simpl; try reflexivity.
    destruct (jseq r (js "Error")); simpl; [reflexivity|].
    now rewrite N.add_0_r.
Qed.

(** The error key of the display counts the failed evaluations: along
    any run it grows by one at each awaited call that is rejected or
    resolves with nothing or with the marker, and at no other event; and
    the settling of an awaited call either records a history entry or
    counts as a failure, never both. *)
Theorem errorKey_counts_failures :
  (forall (evs : list Event) (w : World),
     errorKey (ui (run evs w)) = errorKey (ui w) + N.of_nat (failures evs w))
  /\ (forall (ev : Event) (w : World),
        errorKey (ui (step ev w)) <> errorKey (ui w)
        <-> failed_evaluation ev w = true)
  /\ (forall (o : GeminiOutcome) (now : N) (w : World),
        inflight w <> [] ->
        (recorded (Settled o now) w = None
         <-> failed_evaluation (Settled o now) w = true)).
Proof.
  split; [|split].
  - induction evs as [|ev evs IH]; intros w.
    + simpl. now rewrite N.add_0_r.
    + simpl run. rewrite IH, step_errorKey. simpl failures.
      destruct (failed_evaluation ev w); lia.
  - intros ev w. rewrite step_errorKey.
    destruct (failed_evaluation ev w); split; intros H;
      try reflexivity; try lia; try discriminate.
  - intros o now w Hi. unfold failed_evaluation. simpl.
    destruct (inflight w) as [|c rest]; [congruence|].
    destruct o as [[r|]|]; simpl; try (split; reflexivity).
    destruct (jseq r (js "Error")); split; congruence.
Qed.

Lemma step_calls_while_loading ev w :
  isLoading (ui w) = true -> calls (step ev w) = calls w.
Proof.
  intros HL. destruct (step_calls ev w) as [H|(t & _ & H & _)];
    [exact H | congruence].
Qed.

(** While an evaluation is in progress, no key press, history selection
    or speech event ends it: after any such events the page is still
    evaluating, the same call is awaited, no further call has been made,
    and the history is as it was. Only the settling of the awaited call
    ends the evaluation. *)
Theorem evaluating_until_settled :
  forall (w : World) (evs : list Event),
    isLoading (ui w) = true ->
    Forall (fun ev => is_settled ev = false) evs ->
    isLoading (ui (run evs w)) = true
    /\ inflight (run evs w) = inflight w
    /\ calls (run evs w) = calls w
    /\ history (ui (run evs w)) = history (ui w).
Proof.
  intros w evs HL Hs.
  destruct (run_while_loading evs w HL Hs) as (A & B & C).
  repeat split; try assumption.
  clear A B C. revert w HL Hs.
  induction evs as [|ev evs IH]; intros w HL Hs; [reflexivity|].
  inversion Hs as [|? ? H1 H2]; subst. simpl run.
  destruct (step_while_loading ev w HL H1) as (A & _).
  rewrite (IH _ A H2). now apply step_calls_while_loading.
Qed.

(** An evaluation that the fallback answers: started in a reachable idle
    state on a non-empty input whose primary path throws, with any events
    while the call is awaited, and a call that resolves with a text other
    than the marker. When the call has settled, that text is the display
    and the input buffer (whatever was dictated or selected meanwhile is
    gone), the result is flagged as the fallback's, and the history is the
    old one with, in front, the entry that pairs the input as it was
    submitted with the text. *)
Theorem answered_fallback_end_state :
  forall (w0 : World) (t0 : N) (during : list Event) (r : jsstring) (t1 : N),
    reachable w0 ->
    isLoading (ui w0) = false ->
    input (ui w0) <> [] ->
    try_primary (ui w0) = None ->
    Forall (fun ev => is_settled ev = false) during ->
    r <> js "Error" ->
    let w := step (Settled (Resolved (Some r)) t1)
               (run during (step (Click (js "=") t0) w0)) in
    result (ui w) = r
    /\ input (ui w) = r
    /\ isGemini (ui w) = true
    /\ isLoading (ui w) = false
    /\ inflight w = []
    /\ history (ui w)
       = firstn 20 ({| HistoryItem.input := input (ui w0);
                       HistoryItem.result := r;
                       HistoryItem.date := t1 |} :: history (ui w0)).
Proof.
  intros w0 t0 during r t1 Hr HL Hi Hp Hd Hn.
  pose proof (reachable_loading_inv w0 Hr) as Hinv.
  unfold loading_inv in Hinv. rewrite HL in Hinv.
  set (w1 := step (Click (js "=") t0) w0).
  assert (E1 : w1 = {| ui := setResult [] (setIsLoading true (ui w0));
                       inflight := [input (ui w0)];
                       calls := calls w0 ++ [input (ui w0)] |}).
  { subst w1. simpl. unfold handleButtonClick. rewrite HL. simpl.
    rewrite handleCalculate_fallback by assumption. now rewrite Hinv. }
  assert (L1 : isLoading (ui w1) = true) by now rewrite E1.
  assert (I1 : inflight w1 = [input (ui w0)]) by now rewrite E1.
  assert (H1 : history (ui w1) = history (ui w0)) by now rewrite E1.
  destruct (run_while_loading during w1 L1 Hd) as (A & B & C).
  rewrite I1 in B. rewrite H1 in C.
  intros w. subst w. simpl step. rewrite B.
  unfold handleCalculate_resume. apply jseq_false in Hn. rewrite Hn.
  simpl. rewrite C. repeat split.
Qed.

End SessionFacts.

(** ** The custom themes and their storage *)

Section ThemeFacts.

Context {T : ThemeImports}.

Lemma named_not_named n l : named n (not_named n l) = [].
Proof.
  unfold named, not_named. induction l as [|t l IH]; [reflexivity|].
  simpl. destruct (jseq (Theme.name t) n) eqn:E; simpl; [exact IH|].
  now rewrite E.
Qed.

Lemma not_named_not_named n l : not_named n (not_named n l) = not_named n l.
Proof.
  unfold not_named. induction l as [|t l IH]; [reflexivity|].
  simpl. destruct (jseq (Theme.name t) n) eqn:E; simpl; [exact IH|].
  now rewrite E, IH.
Qed.


Lemma find_not_named n l (extra : list Theme.t) :
  find (fun t => jseq (Theme.name t) n) (not_named n l ++ extra)
  = find (fun t => jseq (Theme.name t) n) extra.
Proof.
  unfold not_named. induction l as [|t l IH]; [reflexivity|].
  simpl. destruct (jseq (Theme.name t) n) eqn:E; simpl; [exact IH|].
  now rewrite E.
Qed.

Lemma customThemes_themeEffect ts :
  customThemes (themeEffect ts) = customThemes ts.
Proof. reflexivity. Qed.

Lemma customThemes_save th ts :
  customThemes (saveCustomTheme th ts)
  = not_named (Theme.name th) (customThemes ts) ++ [th].
Proof. reflexivity. Qed.

Lemma customThemes_delete n ts :
  customThemes (deleteCustomTheme n ts) = not_named n (customThemes ts).
Proof.
  unfold deleteCustomTheme. now destruct (jseq (Theme.name (activeTheme ts)) n).
Qed.

(** After a theme is saved, it is the one custom theme of its name, the
    one a search by that name finds, and the active theme; the themes of
    other names are kept, in their order. *)
Theorem saved_theme_is_the_one_of_its_name :
  forall (th : Theme.t) (ts : ThemeState),
    let ts' := saveCustomTheme th ts in
    named (Theme.name th) (customThemes ts') = [th]
    /\ find_theme (Some (Theme.name th)) (customThemes ts') = Some th
    /\ (forall n, n <> Theme.name th ->
          named n (customThemes ts') = named n (customThemes ts))
    /\ not_named (Theme.name th) (customThemes ts')
       = not_named (Theme.name th) (customThemes ts)
    /\ activeTheme ts' = th.
Proof.
  intros th ts ts'. subst ts'. rewrite customThemes_save.
  assert (Hs : jseq (Theme.name th) (Theme.name th) = true)
    by apply jseq_refl.
  repeat split.
  - unfold named at 1. rewrite filter_app.
    fold (named (Theme.name th) (not_named (Theme.name th) (customThemes ts))).
    rewrite named_not_named. simpl. now rewrite Hs.
  - unfold find_theme. rewrite find_not_named. simpl. now rewrite Hs.
  - intros n Hn. unfold named. rewrite filter_app. simpl.
    assert (E : jseq (Theme.name th) n = false)
      by (apply jseq_false; congruence).
    rewrite E, app_nil_r. unfold not_named.
    induction (customThemes ts) as [|t l IH]; [reflexivity|].
    simpl. destruct (jseq (Theme.name t) (Theme.name th)) eqn:E1; simpl.
    + apply jseq_true in E1. rewrite E1, E. exact IH.
    + destruct (jseq (Theme.name t) n); [now rewrite IH | exact IH].
  - unfold not_named at 1. rewrite filter_app.
    fold (not_named (Theme.name th)
            (not_named (Theme.name th) (customThemes ts))).
    rewrite not_named_not_named. simpl. rewrite Hs. simpl. apply app_nil_r.
Qed.

Lemma NoDup_snoc {A} (l : list A) (x : A) :
  NoDup l -> ~ In x l -> NoDup (l ++ [x]).
Proof.
  induction 1 as [|y l Hy Hl IH]; intros Hx; simpl.
  - constructor; [intros []|constructor].
  - constructor.
    + rewrite in_app_iff. simpl. intros [H|[H|[]]]; [now apply Hy|].
      apply Hx. now left.
    + apply IH. intros H. apply Hx. now right.
Qed.

Lemma names_not_named n l :
  NoDup (map Theme.name l) ->
  NoDup (map Theme.name (not_named n l))
  /\ ~ In n (map Theme.name (not_named n l)).
Proof.
  intros H. split.
  - unfold not_named. induction l as [|t l IH]; [constructor|].
    simpl in H. inversion H as [|? ? Ht Hl]; subst. simpl.
    destruct (negb (jseq (Theme.name t) n)); [|now apply IH].
    simpl. constructor; [|now apply IH].
    intros Hin. apply Ht. apply in_map_iff in Hin.
    destruct Hin as (u & Hu & Hin). apply filter_In in Hin.
    apply in_map_iff. exists u. tauto.
  - intros Hin. apply in_map_iff in Hin. destruct Hin as (u & Hu & Hin).
    apply filter_In in Hin. destruct Hin as [_ Hin].
    apply negb_true_iff, jseq_false in Hin. congruence.
Qed.

Lemma theme_step_names ev ts :
  NoDup (map Theme.name (customThemes ts)) ->
  NoDup (map Theme.name (customThemes (theme_step ev ts))).
Proof.
  intros H. destruct ev as [th|th|n]; cbn [theme_step].
  - unfold setTheme. now destruct (_ && _).
  - rewrite customThemes_save, map_app. simpl.
    destruct (names_not_named (Theme.name th) _ H) as [H1 H2].
    now apply NoDup_snoc.
  - rewrite customThemes_delete. now apply names_not_named.
Qed.

(** The names of the custom themes stay distinct: if no two custom themes
    share a name, no selection, saving or deletion of themes makes two of
    them share one. *)
Theorem custom_theme_names_stay_distinct :
  forall (evs : list ThemeEvent) (ts : ThemeState),
    NoDup (map Theme.name (customThemes ts)) ->
    NoDup (map Theme.name (customThemes (theme_run evs ts))).
Proof.
  induction evs as [|ev evs IH]; intros ts H; [exact H|].
  simpl. apply IH. now apply theme_step_names.
Qed.

Lemma ThemeState_eq (a b : ThemeState) :
  customThemes a = customThemes b -> activeTheme a = activeTheme b ->
  themeAnimationKey a = themeAnimationKey b ->
  localStorage a = localStorage b -> a = b.
Proof. destruct a, b; simpl; congruence. Qed.

Lemma localStorage_save th ts :
  localStorage (saveCustomTheme th ts)
  = let s := try_setItem custom_themes_key
               (JSON_stringify (customThemes (saveCustomTheme th ts)))
               (localStorage ts) in
    if negb (jseq (Theme.name th) (js "Custom"))
    then try_setItem active_theme_name_key (Theme.name th) s
    else s.
Proof. reflexivity. Qed.

Lemma try_setItem_twice key v1 v2 s :
  try_setItem key v2 (try_setItem key v1 s) = try_setItem key v2 s.
Proof.
  unfold try_setItem, setItem. destruct (writable s) eqn:W; simpl.
  - destruct key; simpl; rewrite ?W; reflexivity.
  - now rewrite W.
Qed.

Lemma try_setItem_swap v1 v2 s :
  try_setItem custom_themes_key v2
    (try_setItem active_theme_name_key v1 s)
  = try_setItem active_theme_name_key v1
      (try_setItem custom_themes_key v2 s).
Proof.
  unfold try_setItem, setItem. destruct (writable s) eqn:W; simpl;
    rewrite ?W; reflexivity.
Qed.

(** Saving twice under one name is saving the second theme: the first is
    replaced, in the list, as the active theme and in the storage; in
    particular saving a theme again changes nothing more. *)
Theorem second_save_replaces_first :
  forall (t1 t2 : Theme.t) (ts : ThemeState),
    Theme.name t1 = Theme.name t2 ->
    saveCustomTheme t2 (saveCustomTheme t1 ts) = saveCustomTheme t2 ts.
Proof.
  intros t1 t2 ts Hn.
  assert (E : customThemes (saveCustomTheme t2 (saveCustomTheme t1 ts))
              = customThemes (saveCustomTheme t2 ts)).
  { rewrite !customThemes_save. f_equal. rewrite Hn.
    unfold not_named at 1. rewrite filter_app.
    fold (not_named (Theme.name t2)
            (not_named (Theme.name t2) (customThemes ts))).
    rewrite not_named_not_named. simpl. rewrite Hn, jseq_refl.
    simpl. apply app_nil_r. }
  apply ThemeState_eq; try reflexivity; [exact E|].
  rewrite !localStorage_save, E, Hn.
  destruct (jseq (Theme.name t2) (js "Custom")); simpl.
  - apply try_setItem_twice.
  - rewrite try_setItem_swap, try_setItem_twice, try_setItem_twice.
    reflexivity.
Qed.

(** After the deletion of a name no custom theme carries it and a search
    by it finds nothing; the themes of other names are kept; the active
    theme is the default one if it carried the name, and is kept if not;
    and deleting the name once more changes nothing. *)
Theorem deleted_name_is_gone :
  forall (n : jsstring) (ts : ThemeState),
    let ts' := deleteCustomTheme n ts in
    named n (customThemes ts') = []
    /\ find_theme (Some n) (customThemes ts') = None
    /\ not_named n (customThemes ts') = not_named n (customThemes ts)
    /\ (Theme.name (activeTheme ts) = n -> activeTheme ts' = DEFAULT_THEME)
    /\ (Theme.name (activeTheme ts) <> n -> activeTheme ts' = activeTheme ts)
    /\ customThemes (deleteCustomTheme n ts') = customThemes ts'.
Proof.
  intros n ts ts'. subst ts'. rewrite !customThemes_delete.
  repeat split.
  - apply named_not_named.
  - unfold find_theme.
    rewrite <- (app_nil_r (not_named n (customThemes ts))).
    now rewrite find_not_named.
  - apply not_named_not_named.
  - intros H. apply jseq_true in H. unfold deleteCustomTheme. now rewrite H.
  - intros H. apply jseq_false in H. unfold deleteCustomTheme. now rewrite H.
  - apply not_named_not_named.
Qed.

Lemma flags_try_setItem key v s :
  readable (try_setItem key v s) = readable s
  /\ writable (try_setItem key v s) = writable s.
Proof.
  unfold try_setItem, setItem.
  destruct (writable s) eqn:W; [destruct key|]; now split.
Qed.

Lemma custom_item_name_write v s :
  custom_themes_item (try_setItem active_theme_name_key v s)
  = custom_themes_item s.
Proof. unfold try_setItem, setItem. now destruct (writable s). Qed.

Lemma custom_item_themeEffect ts :
  custom_themes_item (localStorage (themeEffect ts))
  = custom_themes_item (localStorage ts).
Proof.
  unfold themeEffect. simpl.
  destruct (negb _); [apply custom_item_name_write | reflexivity].
Qed.

Lemma flags_themeEffect ts :
  readable (localStorage (themeEffect ts)) = readable (localStorage ts)
  /\ writable (localStorage (themeEffect ts)) = writable (localStorage ts).
Proof.
  unfold themeEffect. simpl.
  destruct (negb _); [apply flags_try_setItem | now split].
Qed.

Lemma custom_item_written l s :
  writable s = true ->
  custom_themes_item (try_setItem custom_themes_key l s) = Some l.
Proof. intros W. unfold try_setItem, setItem. now rewrite W. Qed.

Lemma try_setItem_unwritable key v s :
  writable s = false -> try_setItem key v s = s.
Proof. intros W. unfold try_setItem, setItem. now rewrite W. Qed.

Lemma theme_step_custom_item ev ts :
  is_edit ev = true -> writable (localStorage ts) = true ->
  custom_themes_item (localStorage (theme_step ev ts))
  = Some (JSON_stringify (customThemes (theme_step ev ts))).
Proof.
  intros He W. destruct ev as [th|th|n]; [discriminate He| |];
    cbn [theme_step].
  - unfold saveCustomTheme. rewrite custom_item_themeEffect. simpl.
    now apply custom_item_written.
  - unfold deleteCustomTheme.
    destruct (jseq (Theme.name (activeTheme ts)) n).
    + rewrite custom_item_themeEffect. simpl. now apply custom_item_written.
    + simpl. now apply custom_item_written.
Qed.

Lemma theme_step_unwritable ev ts :
  writable (localStorage ts) = false ->
  localStorage (theme_step ev ts) = localStorage ts.
Proof.
  intros W.
  assert (E : forall ts0, localStorage ts0 = localStorage ts ->
                          localStorage (themeEffect ts0) = localStorage ts).
  { intros ts0 H0. unfold themeEffect. simpl. rewrite H0.
    destruct (negb _); [now apply try_setItem_unwritable | reflexivity]. }
  destruct ev as [th|th|n]; cbn [theme_step].
  - unfold setTheme. destruct (_ && _); [reflexivity|]. now apply E.
  - unfold saveCustomTheme. apply E. simpl. now apply try_setItem_unwritable.
  - unfold deleteCustomTheme.
    destruct (jseq (Theme.name (activeTheme ts)) n).
    + apply E. simpl. now apply try_setItem_unwritable.
    + simpl. now apply try_setItem_unwritable.
Qed.

Lemma theme_step_flags ev ts :
  readable (localStorage (theme_step ev ts)) = readable (localStorage ts)
  /\ writable (localStorage (theme_step ev ts)) = writable (localStorage ts).
Proof.
  destruct ev as [th|th|n]; cbn [theme_step].
  - unfold setTheme. destruct (_ && _); [now split|].
    match goal with
    | |- context [themeEffect ?x] => exact (flags_themeEffect x)
    end.
  - unfold saveCustomTheme.
    destruct (flags_themeEffect
                {| customThemes :=
                     filter (fun t => negb (jseq (Theme.name t) (Theme.name th)))
                       (customThemes ts) ++ [th];
                   activeTheme := th;
                   themeAnimationKey := themeAnimationKey ts;
                   localStorage :=
                     try_setItem custom_themes_key
                       (JSON_stringify
                          (filter
                             (fun t => negb (jseq (Theme.name t) (Theme.name th)))
                             (customThemes ts) ++ [th]))
                       (localStorage ts) |}) as [R W].
    rewrite R, W. simpl. apply flags_try_setItem.
  - unfold deleteCustomTheme.
    destruct (jseq (Theme.name (activeTheme ts)) n).
    + match goal with
      | |- context [themeEffect ?x] =>
          destruct (flags_themeEffect x) as [R W]
      end.
      rewrite R, W. simpl. apply flags_try_setItem.
    + simpl. apply flags_try_setItem.
Qed.


(** What is stored follows the state when the storage takes writes: after
    every saving or deletion the stored text is the serialization of the
    custom themes of the state. When the storage refuses writes the
    handlers go through all the same: the state changes and the storage
    keeps what it held. Selecting a theme never touches the stored list. *)
Theorem stored_themes_follow_state :
  forall (ev : ThemeEvent) (ts : ThemeState),
    (is_edit ev = true -> writable (localStorage ts) = true ->
     custom_themes_item (localStorage (theme_step ev ts))
     = Some (JSON_stringify (customThemes (theme_step ev ts))))
    /\ (writable (localStorage ts) = false ->
        localStorage (theme_step ev ts) = localStorage ts)
    /\ (is_edit ev = false ->
        custom_themes_item (localStorage (theme_step ev ts))
        = custom_themes_item (localStorage ts)
        /\ customThemes (theme_step ev ts) = customThemes ts).
Proof.
  intros ev ts. split; [apply theme_step_custom_item|].
  split; [apply theme_step_unwritable|].
  intros He. destruct ev as [th|th|n]; try discriminate He.
  cbn [theme_step].
  unfold setTheme. destruct (_ && _); [now split|].
  rewrite custom_item_themeEffect. now split.
Qed.

End ThemeFacts.

(** ** The themes across a reload *)

Section ThemeReload.

Context {T : ThemeImports}.

Lemma find_theme_app n (l1 l2 : list Theme.t) :
  find_theme (Some n) (l1 ++ l2)
  = match find_theme (Some n) l1 with
    | Some t => Some t
    | None => find_theme (Some n) l2
    end.
Proof.
  unfold find_theme. induction l1 as [|t l1 IH]; [reflexivity|].
  simpl. now destruct (jseq (Theme.name t) n).
Qed.

Lemma find_theme_absent n (l : list Theme.t) :
  (forall p, In p l -> Theme.name p <> n) -> find_theme (Some n) l = None.
Proof.
  unfold find_theme. induction l as [|t l IH]; intros H; [reflexivity|].
  simpl. destruct (jseq (Theme.name t) n) eqn:E.
  - apply jseq_true in E. exfalso. apply (H t); [now left | exact E].
  - apply IH. intros p Hp. apply H. now right.
Qed.

Lemma initialCustomThemes_stored (s : Storage) (l : list Theme.t) :
  readable s = true ->
  custom_themes_item s = Some (JSON_stringify l) ->
  JSON_parse (JSON_stringify l) = Some l ->
  JSON_stringify l <> [] ->
  initialCustomThemes s = l.
Proof.
  intros R I P N. unfold initialCustomThemes, getItem. rewrite R, I.
  destruct (JSON_stringify l) eqn:E; [congruence|]. now rewrite P.
Qed.

(** The custom themes survive a reload: when the storage can be read and
    written and the serialization of the list reads back as the list,
    the page started again on the storage left by a saving or a deletion
    has the custom themes the state had. *)
Theorem custom_themes_survive_reload :
  forall (ev : ThemeEvent) (ts : ThemeState),
    is_edit ev = true ->
    readable (localStorage ts) = true ->
    writable (localStorage ts) = true ->
    let ts' := theme_step ev ts in
    JSON_parse (JSON_stringify (customThemes ts')) = Some (customThemes ts') ->
    JSON_stringify (customThemes ts') <> [] ->
    customThemes (mount (localStorage ts')) = customThemes ts'.
Proof.
  intros ev ts He R W ts' P N.
  change (customThemes (mount (localStorage ts')))
    with (initialCustomThemes (localStorage ts')).
  apply initialCustomThemes_stored; try assumption.
  - subst ts'. exact (eq_trans (proj1 (theme_step_flags ev ts)) R).
  - subst ts'. now apply theme_step_custom_item.
Qed.

Lemma name_item_custom_write v s :
  active_theme_name_item (try_setItem custom_themes_key v s)
  = active_theme_name_item s.
Proof. unfold try_setItem, setItem. now destruct (writable s). Qed.

Lemma name_item_written v s :
  writable s = true ->
  active_theme_name_item (try_setItem active_theme_name_key v s) = Some v.
Proof. intros W. unfold try_setItem, setItem. now rewrite W. Qed.

(** The stored name after the effect, when the theme is not named Custom
    and the storage takes writes. *)
Lemma themeEffect_name_item ts :
  writable (localStorage ts) = true ->
  Theme.name (activeTheme ts) <> js "Custom" ->
  active_theme_name_item (localStorage (themeEffect ts))
  = Some (Theme.name (activeTheme ts)).
Proof.
  intros W N. unfold themeEffect. simpl. apply jseq_false in N. rewrite N.
  simpl. now apply name_item_written.
Qed.

(** A saved theme is the active one again after a reload, if its name is
    not Custom and no predefined theme carries it (with the storage and the
    serialization as above): the page started again on the storage left by
    the saving has the saved theme as its active theme. *)
Theorem saved_theme_active_after_reload :
  forall (th : Theme.t) (ts : ThemeState),
    theme_reachable ts ->
    readable (localStorage ts) = true ->
    writable (localStorage ts) = true ->
    Theme.name th <> js "Custom" ->
    (forall p, In p PREDEFINED_THEMES -> Theme.name p <> Theme.name th) ->
    let ts' := saveCustomTheme th ts in
    JSON_parse (JSON_stringify (customThemes ts')) = Some (customThemes ts') ->
    JSON_stringify (customThemes ts') <> [] ->
    activeTheme (mount (localStorage ts')) = th
    /\ customThemes (mount (localStorage ts')) = customThemes ts'.
Proof.
  intros th ts _ R W N Hp ts' P E.
  assert (R' : readable (localStorage ts') = true)
    by exact (eq_trans (proj1 (theme_step_flags (SaveCustomTheme th) ts)) R).
  assert (C : initialCustomThemes (localStorage ts') = customThemes ts').
  { apply initialCustomThemes_stored; try assumption.
    now apply (theme_step_custom_item (SaveCustomTheme th)). }
  split; [|exact C].
  change (activeTheme (mount (localStorage ts')))
    with (initialActiveTheme (initialCustomThemes (localStorage ts'))
            (localStorage ts')).
  rewrite C. unfold initialActiveTheme, getItem. rewrite R'.
  assert (I : active_theme_name_item (localStorage ts')
              = Some (Theme.name th)).
  { subst ts'. unfold saveCustomTheme. rewrite themeEffect_name_item.
    - reflexivity.
    - simpl. exact (eq_trans (proj2 (flags_try_setItem _ _ _)) W).
    - exact N. }
  rewrite I, find_theme_app, (find_theme_absent _ _ Hp).
  subst ts'. rewrite customThemes_save. unfold find_theme.
  rewrite find_not_named. simpl. now rewrite jseq_refl.
Qed.

Lemma themeEffect_name_follows ts :
  writable (localStorage (themeEffect ts)) = true ->
  Theme.name (activeTheme (themeEffect ts)) <> js "Custom" ->
  active_theme_name_item (localStorage (themeEffect ts))
  = Some (Theme.name (activeTheme (themeEffect ts))).
Proof.
  intros W N. rewrite (proj2 (flags_themeEffect ts)) in W.
  exact (themeEffect_name_item ts W N).
Qed.

Lemma themeEffect_never_Custom ts :
  active_theme_name_item (localStorage (themeEffect ts)) = Some (js "Custom") ->
  active_theme_name_item (localStorage ts) = Some (js "Custom").
Proof.
  unfold themeEffect. simpl.
  destruct (jseq (Theme.name (activeTheme ts)) (js "Custom")) eqn:E;
    simpl; [trivial|].
  unfold try_setItem, setItem. destruct (writable (localStorage ts));
    simpl; [|trivial].
  intros [= H]. apply jseq_false in E. congruence.
Qed.

Lemma theme_step_name_follows ev ts :
  name_follows ts -> name_follows (theme_step ev ts).
Proof.
  intros H. destruct ev as [th|th|n]; cbn [theme_step].
  - unfold setTheme. destruct (_ && _); [exact H|].
    intros W N. now apply themeEffect_name_follows.
  - unfold saveCustomTheme. intros W N. now apply themeEffect_name_follows.
  - unfold deleteCustomTheme.
    destruct (jseq (Theme.name (activeTheme ts)) n).
    + intros W N. now apply themeEffect_name_follows.
    + intros W N. simpl in *. rewrite name_item_custom_write.
      apply H; [|exact N].
      now rewrite (proj2 (flags_try_setItem _ _ _)) in W.
Qed.

Lemma theme_step_never_Custom ev ts :
  active_theme_name_item (localStorage (theme_step ev ts)) = Some (js "Custom") ->
  active_theme_name_item (localStorage ts) = Some (js "Custom").
Proof.
  destruct ev as [th|th|n]; cbn [theme_step].
  - unfold setTheme. destruct (_ && _); [trivial|].
    intros H. now apply themeEffect_never_Custom in H.
  - unfold saveCustomTheme. intros H. apply themeEffect_never_Custom in H.
    simpl in H. now rewrite name_item_custom_write in H.
  - unfold deleteCustomTheme.
    destruct (jseq (Theme.name (activeTheme ts)) n).
    + intros H. apply themeEffect_never_Custom in H.
      simpl in H. now rewrite name_item_custom_write in H.
    + simpl. now rewrite name_item_custom_write.
Qed.

(** In every state of the themes the page can be in, on a storage that
    takes writes, the stored name is the name of the active theme unless
    that theme is named Custom; and the page never stores the name Custom:
    if the storage holds it, it held it before the page started. *)
Theorem stored_name_follows_active_theme :
  forall (s : Storage) (evs : list ThemeEvent),
    let ts := theme_run evs (mount s) in
    (writable s = true ->
     Theme.name (activeTheme ts) <> js "Custom" ->
     active_theme_name_item (localStorage ts)
     = Some (Theme.name (activeTheme ts)))
    /\ (active_theme_name_item (localStorage ts) = Some (js "Custom") ->
        active_theme_name_item s = Some (js "Custom")).
Proof.
  intros s evs ts.
  assert (G : forall evs ts0,
             name_follows ts0 ->
             name_follows (theme_run evs ts0)
             /\ writable (localStorage (theme_run evs ts0))
                = writable (localStorage ts0)
             /\ (active_theme_name_item (localStorage (theme_run evs ts0))
                 = Some (js "Custom") ->
                 active_theme_name_item (localStorage ts0)
                 = Some (js "Custom"))).
  { clear. induction evs as [|ev evs IH]; intros ts0 H0; [now repeat split|].
    simpl. destruct (IH _ (theme_step_name_follows ev ts0 H0)) as (A & B & C).
    split; [exact A|]. split.
    - rewrite B. apply theme_step_flags.
    - intros H. apply C in H. now apply theme_step_never_Custom in H. }
  assert (M : name_follows (mount s)).
  { unfold mount. intros W N. now apply themeEffect_name_follows. }
  destruct (G evs (mount s) M) as (A & B & C). fold ts in A, B, C.
  split.
  - intros W. apply A. rewrite B. unfold mount.
    rewrite (proj2 (flags_themeEffect _)). exact W.
  - intros H. apply C in H. unfold mount in H.
    now apply themeEffect_never_Custom in H.
Qed.

(** The theme the page starts with is the default one, or a theme of the
    list (predefined or custom) that carries the stored name; a predefined
    theme of that name comes before a custom one; and when the storage
    cannot be read the page starts with the default theme and no custom
    theme. *)
Theorem initial_theme_is_default_or_stored :
  forall s : Storage,
    (activeTheme (mount s) = DEFAULT_THEME
     \/ (In (activeTheme (mount s)) (allThemes (mount s))
         /\ active_theme_name_item s
            = Some (Theme.name (activeTheme (mount s)))))
    /\ (forall n p,
          readable s = true -> active_theme_name_item s = Some n ->
          In p PREDEFINED_THEMES -> Theme.name p = n ->
          In (activeTheme (mount s)) PREDEFINED_THEMES
          /\ Theme.name (activeTheme (mount s)) = n)
    /\ (readable s = false ->
        customThemes (mount s) = [] /\ activeTheme (mount s) = DEFAULT_THEME).
Proof.
  intros s.
  change (activeTheme (mount s))
    with (initialActiveTheme (initialCustomThemes s) s).
  change (allThemes (mount s))
    with (PREDEFINED_THEMES ++ initialCustomThemes s).
  change (customThemes (mount s)) with (initialCustomThemes s).
  unfold initialActiveTheme, getItem.
  destruct (readable s) eqn:R.
  - split; [|split; [|discriminate]].
    + destruct (active_theme_name_item s) as [n|]; [|now left].
      destruct (find_theme (Some n) _) as [t|] eqn:F; [|now left].
      right. unfold find_theme in F. apply find_some in F.
      destruct F as [F1 F2]. apply jseq_true in F2.
      split; [exact F1 | congruence].
    + intros n p _ I Hp Hn. rewrite I, find_theme_app.
      destruct (find_theme (Some n) PREDEFINED_THEMES) as [t|] eqn:F.
      * unfold find_theme in F. apply find_some in F.
        destruct F as [F1 F2]. apply jseq_true in F2. now split.
      * exfalso. unfold find_theme in F.
        apply (find_none _ _ F) in Hp. apply jseq_false in Hp. congruence.
  - split; [now left|]. split; [discriminate|]. intros _.
    split; [|reflexivity]. unfold initialCustomThemes, getItem. now rewrite R.
Qed.

End ThemeReload.

(** ** The alternative "to the power of" never matches *)

Lemma fold_case_eq_letter a c :
  ascii_letter a = true ->
  (Transcript.fold_case a =? Transcript.fold_case c) = true ->
  ascii_letter c = true.
Proof.
  intros Ha H. destruct (ascii_letter c) eqn:E; [reflexivity|].
  now rewrite (fold_case_letter a c Ha E) in H.
Qed.

Lemma letter_is_word c :
  ascii_letter c = true -> Transcript.is_word_char c = true.
Proof.
  unfold ascii_letter, Transcript.is_word_char. intros H.
  apply orb_prop in H. destruct H as [H|H]; rewrite H;
    rewrite ?orb_true_r; reflexivity.
Qed.

Lemma not_word_not_letter c :
  Transcript.is_word_char c = false -> ascii_letter c = false.
Proof.
  intros H. destruct (ascii_letter c) eqn:E; [|reflexivity].
  apply letter_is_word in E. congruence.
Qed.

Lemma replace_words_from_skip alts rep s :
  forall k before,
    Transcript.replace_words_from alts rep k before s
    = Transcript.replace_words_from alts rep 0 (char_before before s k)
        (skipn k s).
Proof.
  induction s as [|c t IH]; intros [|k] before; try reflexivity.
  simpl. apply IH.
Qed.

Lemma has_lone_to_skipn s :
  forall k before,
    has_lone_to before s = false ->
    has_lone_to (char_before before s k) (skipn k s) = false.
Proof.
  induction s as [|c t IH]; intros [|k] before H; try exact H.
  simpl. apply IH. simpl in H. now apply orb_false_elim in H.
Qed.

Lemma hd_error_skipn_nth {A} (s : list A) :
  forall k, hd_error (skipn k s) = nth_error s k.
Proof.
  induction s as [|c t IH]; intros [|k]; try reflexivity. simpl. apply IH.
Qed.

Lemma char_before_nth (s : jsstring) :
  forall k before,
    (k < List.length s)%nat ->
    char_before before s (S k) = nth_error s k.
Proof.
  induction s as [|c t IH]; intros k before H; [simpl in H; lia|].
  destruct k as [|k]; [now destruct t|].
  simpl in H. change (char_before before (c :: t) (S (S k)))
    with (char_before (Some c) t (S k)).
  rewrite IH by lia. reflexivity.
Qed.

(** Where [alt] matches, the code units of [s] fold like those of [alt]. *)
Lemma starts_with_ci_nth alt :
  forall s i a,
    Transcript.starts_with_ci alt s = true ->
    nth_error alt i = Some a ->
    exists c, nth_error s i = Some c
              /\ (Transcript.fold_case a =? Transcript.fold_case c) = true.
Proof.
  induction alt as [|x alt IH]; intros s i a H Hi; [now destruct i|].
  destruct s as [|c s]; [discriminate H|].
  simpl in H. apply andb_prop in H. destruct H as [H1 H2].
  destruct i as [|i].
  - injection Hi as <-. now exists c.
  - simpl in Hi |- *. now apply IH.
Qed.

Lemma starts_with_ci_length alt :
  forall s, Transcript.starts_with_ci alt s = true ->
            (List.length alt <= List.length s)%nat.
Proof.
  induction alt as [|x alt IH]; intros s H; [simpl; lia|].
  destruct s as [|c s]; [discriminate H|].
  simpl in H. apply andb_prop in H. destruct H as [_ H].
  apply IH in H. simpl. lia.
Qed.

Lemma nth_error_last {A} (l : list A) (d : A) :
  l <> [] -> nth_error l (Nat.pred (List.length l)) = Some (last l d).
Proof.
  induction l as [|x l IH]; [congruence|]. intros _.
  destruct l as [|y l]; [reflexivity|].
  change (nth_error (y :: l) (Nat.pred (List.length (y :: l)))
          = Some (last (y :: l) d)).
  apply IH. discriminate.
Qed.

Section WholeWords.

Variables (alts : list jsstring) (r : N).

Hypothesis heads : heads_letter alts = true.
Hypothesis ends : ends_letter alts = true.
Hypothesis not_letter : ascii_letter r = false.

Let scan := Transcript.replace_words_from alts [r] 0.

(** No word is matched right after a word character. *)
Lemma no_match_after_word w c t :
  Transcript.is_word_char w = true ->
  Transcript.word_match alts (Some w) (c :: t) = None.
Proof.
  intros Hw. destruct (Transcript.is_word_char c) eqn:Hc.
  - unfold Transcript.word_match, Transcript.word_boundary. simpl.
    now rewrite Hw, Hc.
  - apply word_match_letter_free; [exact heads|].
    now apply not_word_not_letter.
Qed.

Lemma scan_after_word w c t :
  Transcript.is_word_char w = true ->
  scan (Some w) (c :: t) = c :: scan (Some c) t.
Proof.
  intros Hw. unfold scan. simpl.
  now rewrite (no_match_after_word w c t Hw).
Qed.

Lemma hd_scan_after_word w t :
  Transcript.is_word_char w = true ->
  hd_error (scan (Some w) t) = hd_error t.
Proof.
  intros Hw. destruct t as [|c t]; [reflexivity|].
  now rewrite scan_after_word.
Qed.

Lemma scan_not_letter before c t :
  ascii_letter c = false -> scan before (c :: t) = c :: scan (Some c) t.
Proof.
  intros Hc. unfold scan. simpl.
  now rewrite (word_match_letter_free alts before c t heads Hc).
Qed.

(** What a match tells: it starts at a letter that no word character
    precedes, it is not empty, and no word character follows it. *)
Lemma word_match_whole before s m :
  Transcript.word_match alts before s = Some m ->
  (0 < m <= List.length s)%nat
  /\ (exists l, nth_error s (Nat.pred m) = Some l
                /\ Transcript.is_word_char l = true)
  /\ Transcript.is_word (nth_error s m) = false.
Proof.
  unfold Transcript.word_match.
  destruct (Transcript.word_boundary before (hd_error s)); [|discriminate].
  destruct (find _ alts) as [alt|] eqn:F; [|discriminate].
  simpl. intros [= <-]. apply find_some in F. destruct F as [Hin Hm].
  unfold Transcript.alternative_matches in Hm. apply andb_prop in Hm.
  destruct Hm as [Hs Hb].
  unfold heads_letter in heads. rewrite forallb_forall in heads.
  unfold ends_letter in ends. rewrite forallb_forall in ends.
  specialize (heads alt Hin). specialize (ends alt Hin).
  destruct alt as [|a alt']; [discriminate heads|].
  pose proof (starts_with_ci_length _ _ Hs) as L.
  assert (Hl : nth_error (a :: alt') (Nat.pred (List.length (a :: alt')))
               = Some (last (a :: alt') 0))
    by (apply nth_error_last; discriminate).
  destruct (starts_with_ci_nth _ _ _ _ Hs Hl) as (l & Hl1 & Hl2).
  apply (fold_case_eq_letter _ _ ends), letter_is_word in Hl2.
  split; [simpl in *; lia|]. split; [now exists l|].
  rewrite Hl1 in Hb. unfold Transcript.word_boundary in Hb.
  change (Transcript.is_word (Some l)) with (Transcript.is_word_char l) in Hb.
  rewrite Hl2 in Hb.
  destruct (Transcript.is_word (nth_error s (List.length (a :: alt'))));
    [discriminate Hb | reflexivity].
Qed.

Lemma lone_to_not_letter ob c t :
  ascii_letter c = false -> lone_to_at ob (c :: t) = false.
Proof.
  intros Hc. unfold lone_to_at, Transcript.alternative_matches.
  change (js "to") with [116; 111]. cbn [Transcript.starts_with_ci].
  rewrite (fold_case_letter 116 c eq_refl Hc). simpl. apply andb_false_r.
Qed.

(** Where the word stands alone in the output after a place without
    match, it stands alone in the input. *)
Lemma lone_to_scan before c t :
  lone_to_at before (c :: scan (Some c) t) = true ->
  lone_to_at before (c :: t) = true.
Proof.
  unfold lone_to_at, Transcript.alternative_matches.
  change (js "to") with [116; 111].
  cbn [hd_error List.length Nat.pred].
  intros H. apply andb_prop in H. destruct H as [Hb H].
  apply andb_prop in H. destruct H as [Hs Hw].
  rewrite Hb. cbn [Transcript.starts_with_ci] in Hs.
  apply andb_prop in Hs. destruct Hs as [Hc Hs].
  assert (Wc : Transcript.is_word_char c = true)
    by (apply letter_is_word, (fold_case_eq_letter 116); auto).
  destruct t as [|d t]; [discriminate Hs|].
  rewrite (scan_after_word c d t Wc) in Hs, Hw.
  cbn [Transcript.starts_with_ci] in Hs.
  apply andb_prop in Hs. destruct Hs as [Hd _].
  assert (Wd : Transcript.is_word_char d = true)
    by (apply letter_is_word, (fold_case_eq_letter 111); auto).
  cbn [Transcript.starts_with_ci nth_error] in Hw |- *.
  rewrite Hc, Hd. simpl andb.
  change (Transcript.word_boundary (Some d) (hd_error t) = true).
  rewrite <- (hd_scan_after_word d t Wd). exact Hw.
Qed.

(** The replacement of whole words by a character that is not a letter
    brings no lone "to": the output has none if the input has none, or if
    "to" is among the words replaced. *)
Lemma scan_no_lone_to n :
  forall s before ob,
    (List.length s <= n)%nat ->
    In (js "to") alts \/ has_lone_to before s = false ->
    ob = before \/ Transcript.is_word (hd_error s) = false ->
    has_lone_to ob (scan before s) = false.
Proof.
  induction n as [|n IH]; intros s before ob L Hsrc Hob.
  { destruct s; [reflexivity | simpl in L; lia]. }
  destruct s as [|c t]; [reflexivity|].
  unfold scan. simpl Transcript.replace_words_from.
  destruct (Transcript.word_match alts before (c :: t)) as [m|] eqn:M.
  - destruct (word_match_whole _ _ _ M) as (Lm & (l & Hl & Wl) & Hafter).
    rewrite replace_words_from_skip. fold scan.
    simpl app. simpl has_lone_to.
    rewrite (lone_to_not_letter ob r _ not_letter). simpl.
    destruct m as [|m]; [lia|]. simpl Nat.pred in *.
    apply IH.
    + rewrite length_skipn. simpl in L. lia.
    + destruct Hsrc as [Hsrc|Hsrc]; [now left|]. right.
      apply (has_lone_to_skipn t m (Some c)).
      simpl in Hsrc. now apply orb_false_elim in Hsrc.
    + right. rewrite hd_error_skipn_nth. exact Hafter.
  - fold scan. simpl has_lone_to. apply orb_false_intro.
    + destruct (lone_to_at ob (c :: scan (Some c) t)) eqn:E; [|reflexivity].
      exfalso.
      assert (Wc : Transcript.is_word_char c = true).
      { destruct (ascii_letter c) eqn:Ec; [now apply letter_is_word|].
        now rewrite (lone_to_not_letter ob c _ Ec) in E. }
      destruct Hob as [->|Hob]; [|simpl in Hob; congruence].
      apply lone_to_scan in E.
      destruct Hsrc as [Hsrc|Hsrc].
      * unfold lone_to_at in E. apply andb_prop in E. destruct E as [E1 E2].
        unfold Transcript.word_match in M. rewrite E1 in M.
        destruct (find _ alts) eqn:F; [discriminate M|].
        apply (find_none _ _ F) in Hsrc. congruence.
      * simpl in Hsrc. apply orb_false_elim in Hsrc. destruct Hsrc. congruence.
    + apply IH.
      * simpl in L. lia.
      * destruct Hsrc as [Hsrc|Hsrc]; [now left|]. right.
        simpl in Hsrc. now apply orb_false_elim in Hsrc.
      * now left.
Qed.

End WholeWords.

Lemma replace_words_no_lone_to alts rep r s :
  heads_letter (map js alts) = true ->
  ends_letter (map js alts) = true ->
  js rep = [r] -> ascii_letter r = false ->
  In (js "to") (map js alts) \/ has_lone_to None s = false ->
  has_lone_to None (Transcript.replace_words alts rep s) = false.
Proof.
  intros Hh He Hr Hl Hsrc. unfold Transcript.replace_words. rewrite Hr.
  apply (scan_no_lone_to (map js alts) r Hh He Hl (List.length s));
    [lia | exact Hsrc | now left].
Qed.

Lemma symbols_before_power_no_lone_to t :
  has_lone_to None (symbols_before_power t) = false.
Proof.
  unfold symbols_before_power. cbv zeta.
  do 14 (eapply replace_words_no_lone_to;
         [reflexivity | reflexivity | reflexivity | reflexivity | right]).
  eapply replace_words_no_lone_to;
    [reflexivity | reflexivity | reflexivity | reflexivity | left].
  cbn. tauto.
Qed.

Lemma fold_case_space e :
  (Transcript.fold_case 32 =? Transcript.fold_case e) = true -> e = 32.
Proof.
  unfold Transcript.fold_case. intros H. apply N.eqb_eq in H.
  destruct (N.leb_spec 97 e), (N.leb_spec e 122); simpl in H; lia.
Qed.

(** Where "to the power of" matches, "to" stands alone. *)
Lemma power_phrase_lone_to before s :
  Transcript.word_boundary before (hd_error s) = true ->
  Transcript.alternative_matches (js "to the power of") s = true ->
  lone_to_at before s = true.
Proof.
  intros Hb H. unfold lone_to_at. rewrite Hb. simpl.
  unfold Transcript.alternative_matches in *.
  apply andb_prop in H. destruct H as [H _].
  change (js "to the power of")
    with (116 :: 111 :: 32 :: js "the power of") in H.
  change (js "to") with [116; 111].
  destruct s as [|c [|d [|e s]]]; simpl in H;
    try (repeat (apply andb_prop in H; destruct H as [? H]); discriminate).
  apply andb_prop in H. destruct H as [Hc H].
  apply andb_prop in H. destruct H as [Hd H].
  apply andb_prop in H. destruct H as [He _].
  apply fold_case_space in He. subst e.
  simpl. rewrite Hc, Hd. simpl.
  apply (fold_case_eq_letter 111), letter_is_word in Hd; [|reflexivity].
  unfold Transcript.word_boundary. simpl. now rewrite Hd.
Qed.

Lemma power_rule_without_phrase rep s :
  forall k before,
    has_lone_to before s = false ->
    Transcript.replace_words_from
      [js "power"; js "to the power of"] rep k before s
    = Transcript.replace_words_from [js "power"] rep k before s.
Proof.
  induction s as [|c t IH]; intros k before H; [reflexivity|].
  simpl in H. apply orb_false_elim in H. destruct H as [H1 H2].
  destruct k as [|k]; simpl Transcript.replace_words_from;
    [|now apply IH].
  assert (E : Transcript.word_match [js "power"; js "to the power of"]
                before (c :: t)
              = Transcript.word_match [js "power"] before (c :: t)).
  { unfold Transcript.word_match.
    destruct (Transcript.word_boundary before (hd_error (c :: t))) eqn:Hb;
      [|reflexivity].
    cbn [find].
    destruct (Transcript.alternative_matches (js "power") (c :: t));
      [reflexivity|].
    destruct (Transcript.alternative_matches (js "to the power of") (c :: t))
      eqn:Hp; [|reflexivity].
    rewrite (power_phrase_lone_to before (c :: t) Hb Hp) in H1.
    discriminate H1. }
  rewrite E.
  destruct (Transcript.word_match [js "power"] before (c :: t));
    now rewrite IH.
Qed.

(** The alternative "to the power of" of the rule of the powers is dead:
    when the rule runs, every "to" that stood as a word has been replaced
    by 2, so that the rule does what it would do with the alternative
    "power" alone, on every transcript; "two to the power of three" is
    made into "22^3". *)
Theorem power_phrase_never_matches :
  (forall t : jsstring,
     Transcript.spoken_to_symbols t
     = symbols_from_power ["power"; "to the power of"]%string
         (symbols_before_power t))
  /\ (forall t : jsstring,
        Transcript.spoken_to_symbols t
        = symbols_from_power ["power"]%string (symbols_before_power t))
  /\ Transcript.sanitizedTranscript (js "two to the power of three")
     = js "22^3".
Proof.
  split; [reflexivity|]. split; [|reflexivity].
  intros t.
  change (Transcript.spoken_to_symbols t)
    with (symbols_from_power ["power"; "to the power of"]%string
            (symbols_before_power t)).
  unfold symbols_from_power. cbv zeta. do 2 f_equal.
  unfold Transcript.replace_words.
  apply (power_rule_without_phrase (js "^") (symbols_before_power t) 0 None).
  apply symbols_before_power_no_lone_to.
Qed.

(** ** The voice capture *)

Section CaptureFacts.

Context {X : Externals}.

Lemma handleButtonClick_recognitionRef v now w :
  recognitionRef (ui (handleButtonClick v now w)) <> recognitionRef (ui w) ->
  v = js "MIC" /\ isLoading (ui w) = false /\ isListening (ui w) = false
  /\ speechRecognitionSupported = true
  /\ recognitionRef (ui (handleButtonClick v now w)) = true.
Proof.
  unfold handleButtonClick.
  destruct (isLoading (ui w)) eqn:HL; [congruence|].
  destruct (lookup v (functions (is2nd (ui w)))); [simpl; congruence|].
  destruct (jseq v (js "AC")); [simpl; congruence|].
  destruct (jseq v (js "=")).
  { unfold handleCalculate.
    destruct (input (ui w)); [congruence|].
    destruct (try_primary (ui w)); simpl; congruence. }
  destruct (jseq v (js "(")); [simpl; congruence|].
  destruct (jseq v (js ")")); [simpl; congruence|].
  destruct (jseq v (js "Deg")); [simpl; congruence|].
  destruct (jseq v (js "2nd")); [simpl; congruence|].
  destruct (jseq v (js "x^y")); [simpl; congruence|].
  destruct (jseq v (js "!")); [simpl; congruence|].
  destruct (jseq v (js "1/x")); [simpl; congruence|].
  destruct (jseq v (js "e")); [simpl; congruence|].
  destruct (jseq v [greek_pi]); [simpl; congruence|].
  destruct (jseq v (js "MIC")) eqn:EM.
  { apply jseq_true in EM. unfold with_ui, handleMicClick. simpl.
    destruct speechRecognitionSupported; simpl; [|congruence].
    destruct (isListening (ui w)); simpl; [congruence|]. now intros _. }
  destruct (jseq v (js "DEL")); [simpl; congruence|].
  destruct (_ && _); simpl; congruence.
Qed.

(** A capture is started by nothing but the MIC key, pressed while no
    evaluation is in progress and no capture is listening, in a browser
    that has speech recognition; and the reference to the capture is
    dropped by nothing but the end or the failure of a capture. *)
Theorem capture_started_only_by_mic_key :
  forall (ev : Event) (w : World),
    (recognitionRef (ui w) = false ->
     recognitionRef (ui (step ev w)) = true ->
     (exists now, ev = Click (js "MIC") now)
     /\ isLoading (ui w) = false /\ isListening (ui w) = false
     /\ speechRecognitionSupported = true)
    /\ (recognitionRef (ui w) = true ->
        recognitionRef (ui (step ev w)) = false ->
        ev = RecognitionEnd \/ exists e, ev = RecognitionError e).
Proof.
  intros ev w. split; intros H0 H1.
  - destruct ev as [v now|v|o now| | |e|t]; simpl in H1; try congruence.
    + destruct (handleButtonClick_recognitionRef v now w)
        as (Hv & HL & Hl & Hs & _); [congruence|].
      subst v. repeat split; try assumption. now exists now.
    + destruct (inflight w); simpl in H1; [congruence|].
      unfold handleCalculate_resume in H1.
      destruct o as [[r|]|]; simpl in H1; try congruence.
      destruct (jseq r (js "Error")); simpl in H1; congruence.
  - destruct ev as [v now|v|o now| | |e|t]; simpl in H1; try congruence.
    + destruct (handleButtonClick_recognitionRef v now w)
        as (_ & _ & _ & _ & Ht); congruence.
    + destruct (inflight w); simpl in H1; [congruence|].
      unfold handleCalculate_resume in H1.
      destruct o as [[r|]|]; simpl in H1; try congruence.
      destruct (jseq r (js "Error")); simpl in H1; congruence.
    + now left.
    + right. now exists e.
Qed.

End CaptureFacts.

(** ** Concrete runs *)


(** From the text "(2x3", a history selection and a transcript while the
    call is awaited, then a rejection. *)
Lemma failed_fallback_end_state_witness :
  let w := step (X := Stub.externals) (Settled Rejected 9)
             (run (X := Stub.externals)
                [HistoryClick (js "7"); RecognitionResult (js "two")]
                (step (X := Stub.externals) (Click (js "=") 5)
                   Stub.composing)) in
  result (ui w) = js "API Error" /\ input (ui w) = []
  /\ history (ui w) = [].
Proof.
  assert (Hr : reachable (X := Stub.externals) Stub.composing)
    by (eexists; reflexivity).
  assert (Hi : input (ui Stub.composing) <> []) by discriminate.
  assert (Hd : Forall (fun ev => is_settled ev = false)
                 [HistoryClick (js "7"); RecognitionResult (js "two")])
    by (repeat constructor).
  pose proof (failed_fallback_end_state (X := Stub.externals)
                Stub.composing 5 _ Rejected 9
                Hr eq_refl Hi eq_refl Hd (or_introl eq_refl)) as H.
  cbv zeta in H |- *.
  destruct H as (_ & H1 & _ & H2 & H3 & _).
  split; [exact (H1 eq_refl)|]. split; [exact H2 | exact H3].
Defined.





(** Twenty-one evaluations in a row: the history holds the twenty latest,
    and the entry of the first is not among them. *)
Lemma history_capped_latest_first_witness :
  let evs := Stub.evaluate_digits 21 in
  List.length (evaluations (X := Stub.externals) evs initial_world) = 21%nat
  /\ List.length (history (ui (Stub.play evs))) = 20%nat
  /\ map HistoryItem.date (history (ui (Stub.play evs)))
     = [21; 20; 19; 18; 17; 16; 15; 14; 13; 12;
        11; 10; 9; 8; 7; 6; 5; 4; 3; 2]
  /\ history (ui (Stub.play evs))
     = removelast (evaluations (X := Stub.externals) evs initial_world).
Proof.
  cbv zeta.
  destruct (history_capped_latest_first (X := Stub.externals)
              (Stub.evaluate_digits 21)) as (_ & _ & _ & H).
  split; [reflexivity|]. split; [reflexivity|]. split; [reflexivity|].
  apply H. reflexivity.
Defined.

Lemma single_call_in_flight_witness :
  inflight Stub.awaiting_with_capture = [js "(2"]
  /\ isLoading (ui Stub.awaiting_with_capture) = true.
Proof.
  assert (Hr : reachable (X := Stub.externals) Stub.awaiting_with_capture)
    by (eexists; reflexivity).
  destruct (single_call_in_flight (X := Stub.externals) _ Hr) as (_ & H & _).
  split; [reflexivity|]. apply H. now eexists.
Defined.

Lemma history_ordered_by_date_witness :
  latest_first (history (ui (Stub.play (Stub.evaluate_digits 3))))
  /\ map HistoryItem.date (history (ui (Stub.play (Stub.evaluate_digits 3))))
     = [3; 2; 1].
Proof.
  split; [|reflexivity].
  apply (history_ordered_by_date (X := Stub.externals)
           (Stub.evaluate_digits 3)).
  simpl. repeat split; lia.
Defined.

(** The transcript "2 + 3", as a recognizer writes it, appends "2+3". *)
Lemma letter_free_transcript_kept_witness :
  Transcript.sanitizedTranscript (js "2 + 3") = js "2+3".
Proof.
  assert (H : Forall (fun c => ascii_letter c = false) (js "2 + 3"))
    by (repeat constructor).
  destruct (letter_free_transcript_kept (js "2 + 3") H) as (_ & E & _).
  rewrite E. reflexivity.
Defined.

Lemma recorded_inputs_nonempty_witness :
  nonempty_inputs Stub.awaiting_with_capture
  /\ calls Stub.awaiting_with_capture = [js "(2"].
Proof.
  split; [|reflexivity].
  apply (recorded_inputs_nonempty (X := Stub.externals)).
  eexists. reflexivity.
Defined.

(** After 5 has been evaluated, clearing and deleting leave the history. *)
Lemma history_only_grows_witness :
  history (ui (run (X := Stub.externals)
                 [Click (js "AC") 3; Click (js "DEL") 4]
                 (Stub.play [Click (js "5") 1; Click (js "=") 2])))
  = history (ui (Stub.play [Click (js "5") 1; Click (js "=") 2]))
  /\ List.length (history (ui (Stub.play [Click (js "5") 1; Click (js "=") 2])))
     = 1%nat.
Proof.
  split; [|reflexivity].
  assert (Hr : reachable (X := Stub.externals)
                 (Stub.play [Click (js "5") 1; Click (js "=") 2]))
    by (eexists; reflexivity).
  destruct (history_only_grows (X := Stub.externals) _
              [Click (js "AC") 3; Click (js "DEL") 4] Hr) as (_ & _ & H).
  apply H. reflexivity.
Defined.


Lemma evaluating_until_settled_witness :
  let w := run (X := Stub.externals)
             [Click (js "AC") 5; HistoryClick (js "7");
              RecognitionResult (js "two"); Click (js "=") 6]
             Stub.awaiting_with_capture in
  isLoading (ui w) = true /\ inflight w = [js "(2"] /\ calls w = [js "(2"].
Proof.
  assert (Hd : Forall (fun ev => is_settled ev = false)
                 [Click (js "AC") 5; HistoryClick (js "7");
                  RecognitionResult (js "two"); Click (js "=") 6])
    by (repeat constructor).
  destruct (evaluating_until_settled (X := Stub.externals)
              Stub.awaiting_with_capture _ eq_refl Hd) as (A & B & C & _).
  cbv zeta. split; [exact A|]. split; [exact B | exact C].
Defined.

(** The call awaited on "(2x3" resolves with "6" after a transcript has
    been delivered: the dictated text is gone, the entry pairs the
    submitted text with "6". *)
Lemma answered_fallback_end_state_witness :
  let w := step (X := Stub.externals) (Settled (Resolved (Some (js "6"))) 9)
             (run (X := Stub.externals) [RecognitionResult (js "two")]
                (step (X := Stub.externals) (Click (js "=") 5)
                   Stub.composing)) in
  input (ui w) = js "6"
  /\ map HistoryItem.input (history (ui w))
     = [js "(2" ++ [times_sign] ++ js "3"].
Proof.
  assert (Hr : reachable (X := Stub.externals) Stub.composing)
    by (eexists; reflexivity).
  assert (Hi : input (ui Stub.composing) <> []) by discriminate.
  assert (Hd : Forall (fun ev => is_settled ev = false)
                 [RecognitionResult (js "two")])
    by (repeat constructor).
  assert (Hn : js "6" <> js "Error") by discriminate.
  pose proof (answered_fallback_end_state (X := Stub.externals)
                Stub.composing 5 _ (js "6") 9
                Hr eq_refl Hi eq_refl Hd Hn) as H.
  cbv zeta in H |- *. destruct H as (_ & H1 & _ & _ & _ & H2).
  split; [exact H1|]. rewrite H2. reflexivity.
Defined.

Lemma custom_theme_names_stay_distinct_witness :
  map Theme.name
    (customThemes
       (theme_run (T := ThemeStub.imports)
          [SaveCustomTheme ThemeStub.ocean; SaveCustomTheme ThemeStub.light;
           SaveCustomTheme ThemeStub.ocean'; DeleteCustomTheme (js "Dark");
           SetTheme ThemeStub.light]
          ThemeStub.started))
  = [js "Light"; js "Ocean"]
  /\ NoDup
       (map Theme.name
          (customThemes
             (theme_run (T := ThemeStub.imports)
                [SaveCustomTheme ThemeStub.ocean;
                 SaveCustomTheme ThemeStub.light;
                 SaveCustomTheme ThemeStub.ocean';
                 DeleteCustomTheme (js "Dark"); SetTheme ThemeStub.light]
                ThemeStub.started))).
Proof.
  split; [reflexivity|].
  apply (custom_theme_names_stay_distinct (T := ThemeStub.imports)).
  constructor.
Defined.

Lemma second_save_replaces_first_witness :
  customThemes
    (saveCustomTheme (T := ThemeStub.imports) ThemeStub.ocean'
       (saveCustomTheme (T := ThemeStub.imports) ThemeStub.ocean
          ThemeStub.started))
  = [ThemeStub.ocean'].
Proof.
  rewrite (second_save_replaces_first (T := ThemeStub.imports)
             ThemeStub.ocean ThemeStub.ocean' ThemeStub.started eq_refl).
  reflexivity.
Defined.


Lemma custom_themes_survive_reload_witness :
  customThemes
    (mount (T := ThemeStub.imports)
       (localStorage
          (saveCustomTheme (T := ThemeStub.imports) ThemeStub.ocean
             ThemeStub.started)))
  = [ThemeStub.ocean].
Proof.
  assert (N : JSON_stringify (ThemeImports := ThemeStub.imports) [ThemeStub.ocean] <> [])
    by discriminate.
  exact (custom_themes_survive_reload (T := ThemeStub.imports)
           (SaveCustomTheme ThemeStub.ocean) ThemeStub.started
           eq_refl eq_refl eq_refl eq_refl N).
Defined.

Lemma saved_theme_active_after_reload_witness :
  activeTheme
    (mount (T := ThemeStub.imports)
       (localStorage
          (saveCustomTheme (T := ThemeStub.imports) ThemeStub.ocean
             ThemeStub.started)))
  = ThemeStub.ocean.
Proof.
  assert (Hr : theme_reachable (T := ThemeStub.imports) ThemeStub.started)
    by (exists ThemeStub.empty_storage, []; reflexivity).
  assert (Hn : Theme.name ThemeStub.ocean <> js "Custom") by discriminate.
  assert (Hp : forall p, In p (PREDEFINED_THEMES (ThemeImports := ThemeStub.imports)) ->
                         Theme.name p <> Theme.name ThemeStub.ocean).
  { intros p [<-|[<-|[]]]; discriminate. }
  assert (N : JSON_stringify (ThemeImports := ThemeStub.imports) [ThemeStub.ocean] <> [])
    by discriminate.
  exact (proj1 (saved_theme_active_after_reload (T := ThemeStub.imports)
                  ThemeStub.ocean ThemeStub.started
                  Hr eq_refl eq_refl Hn Hp eq_refl N)).
Defined.
